(** * RMagics: the R bridge of IPython/extensions/rmagic.py

    A shallow embedding of the [RMagics] class (the output buffer, [eval],
    [write_console], [flush], the line magics [Rpush] and [Rpull] and the
    line/cell magic [R]) together with the properties of the session bridge
    that the specification states.

    Python 2 byte strings ([str]) are Rocq strings, decoded text
    ([unicode]) is a list of code points, the host namespace
    ([shell.user_ns]) is a finite map, and every method is a function from
    the world it runs in to the world it leaves and either the exception it
    raises or the value it returns. *)

From Stdlib Require Import NArith ZArith Ascii String List Lia.
From stdpp Require Import base option list strings gmap stringmap pretty.

Set Warnings "-register-all".

Local Open Scope string_scope.
Local Open Scope list_scope.

(** ** Python string helpers *)

(** [sep.join(parts)] for byte strings. *)
Fixpoint join (sep : string) (parts : list string) : string :=
  match parts with
  | [] => ""
  | [p] => p
  | p :: rest => p +:+ sep +:+ join sep rest
  end.

(** [s.split(sep)] for a one-character separator: every occurrence of the
    separator cuts, so the empty string splits into one empty field. *)
Fixpoint split (sep : ascii) (s : string) : list string :=
  match s with
  | EmptyString => [""]
  | String c s' =>
      if Ascii.eqb c sep then "" :: split sep s'
      else match split sep s' with
           | h :: t => String c h :: t
           | [] => [String c ""]
           end
  end.

(** Does the character occur in the string? *)
Fixpoint occurs (c : ascii) (s : string) : bool :=
  match s with
  | EmptyString => false
  | String d s' => Ascii.eqb d c || occurs c s'
  end.

(** How often the character occurs in the string. *)
Fixpoint count_char (c : ascii) (s : string) : nat :=
  match s with
  | EmptyString => 0
  | String d s' => (if Ascii.eqb d c then 1 else 0) + count_char c s'
  end.

(** [name.startswith(p)] *)
Fixpoint startswith (p s : string) : bool :=
  match p, s with
  | EmptyString, _ => true
  | String a p', String b s' => Ascii.eqb a b && startswith p' s'
  | String _ _, EmptyString => false
  end.

(** The string without its first [n] characters. *)
Fixpoint string_drop (n : nat) (s : string) : string :=
  match n, s with
  | O, _ => s
  | S n', String _ s' => string_drop n' s'
  | S _, EmptyString => ""
  end.

(** [name.endswith(p)] *)
Definition endswith (p s : string) : bool :=
  (String.length p <=? String.length s)%nat &&
  String.eqb (string_drop (String.length s - String.length p) s) p.

(** ** UTF-8 decoding, as [str.decode('utf-8')] does it

    The strict decoder of Python 2.7: one to four bytes per code point,
    no overlong forms, nothing above U+10FFFF.  A malformed sequence is a
    [UnicodeDecodeError], here [None]. *)

Definition unicode := list N.

Definition byte_val (c : ascii) : N := N_of_ascii c.

Definition is_cont (b : N) : bool := ((128 <=? b) && (b <=? 191))%N.

Definition cont_bits (b : N) : N := (b - 128)%N.

Fixpoint decode_utf8 (s : string) : option unicode :=
  match s with
  | EmptyString => Some []
  | String c0 s1 =>
      let b0 := byte_val c0 in
      if (b0 <? 128)%N then
        match decode_utf8 s1 with Some t => Some (b0 :: t) | None => None end
      else if ((194 <=? b0) && (b0 <=? 223))%N then
        match s1 with
        | String c1 s2 =>
            let b1 := byte_val c1 in
            if is_cont b1 then
              match decode_utf8 s2 with
              | Some t => Some (((b0 - 192) * 64 + cont_bits b1)%N :: t)
              | None => None
              end
            else None
        | EmptyString => None
        end
      else if ((224 <=? b0) && (b0 <=? 239))%N then
        match s1 with
        | String c1 (String c2 s3) =>
            let b1 := byte_val c1 in
            let b2 := byte_val c2 in
            if is_cont b1 && is_cont b2
               && negb ((b0 =? 224)%N && (b1 <? 160)%N) then
              match decode_utf8 s3 with
              | Some t =>
                  Some (((b0 - 224) * 4096 + cont_bits b1 * 64
                         + cont_bits b2)%N :: t)
              | None => None
              end
            else None
        | _ => None
        end
      else if ((240 <=? b0) && (b0 <=? 244))%N then
        match s1 with
        | String c1 (String c2 (String c3 s4)) =>
            let b1 := byte_val c1 in
            let b2 := byte_val c2 in
            let b3 := byte_val c3 in
            if is_cont b1 && is_cont b2 && is_cont b3
               && negb ((b0 =? 240)%N && (b1 <? 144)%N)
               && negb ((b0 =? 244)%N && (143 <? b1)%N) then
              match decode_utf8 s4 with
              | Some t =>
                  Some (((b0 - 240) * 262144 + cont_bits b1 * 4096
                         + cont_bits b2 * 64 + cont_bits b3)%N :: t)
              | None => None
              end
            else None
        | _ => None
        end
      else None
  end.

(** [[s.decode('utf-8') for s in chunks]]: the first chunk that does not
    decode raises, and nothing is returned. *)
Fixpoint decode_all (chunks : list string) : option (list unicode) :=
  match chunks with
  | [] => Some []
  | c :: rest =>
      match decode_utf8 c with
      | Some t =>
          match decode_all rest with
          | Some ts => Some (t :: ts)
          | None => None
          end
      | None => None
      end
  end.

(** ** Values, exceptions, files and display items *)

(** A Python object as the bridge sees it: [None], an opaque object (a
    numpy array, an R object handle), or a list of objects. *)
Inductive pyval (Obj : Type) : Type :=
  | PNone
  | PObj (o : Obj)
  | PList (items : list (pyval Obj)).
Arguments PNone {Obj}.
Arguments PObj {Obj} o.
Arguments PList {Obj} items.

(** The exceptions that reach the caller of a magic. *)
Inductive exn : Type :=
  | KeyError (key : string)
  | RRuntimeError (msg : string)
  | UnicodeDecodeError
  | OSError (path : string)
  | IOError (path : string)
  | OtherError (msg : string).

(** A directory is the list of its entries, name and content, in the order
    a listing returns them; the file system maps directory paths to
    directories. *)
Abbreviation directory := (list (string * string)).
Abbreviation FS := (gmap string directory).

(** The payload of a display message under its MIME type. *)
Inductive payload : Type :=
  | Text (t : unicode)
  | Bytes (b : string).

Record display_item : Type := mk_item {
  item_source : string;
  item_mime : string;
  item_data : payload
}.

(** What one parse-and-evaluate in the embedded interpreter does: the new
    interpreter state, the new file system (the plotting device writes
    files), the chunks handed to the console hook in order, and either the
    message of the [RRuntimeError] or the value. *)
Record r_run (Obj RState : Type) : Type := mk_run {
  run_state : RState;
  run_fs : FS;
  run_console : list string;
  run_result : string + pyval Obj
}.
Arguments mk_run {Obj RState}.
Arguments run_state {Obj RState}.
Arguments run_fs {Obj RState}.
Arguments run_console {Obj RState}.
Arguments run_result {Obj RState}.

(** The collaborators one [RMagics] object is built on: the embedded R
    process (parse and evaluate a string; assign a value to a global name)
    and the two converters given to [__init__]. *)
Class Bridge : Type := mk_bridge {
  Obj : Type;
  RState : Type;
  r_parse_eval : string -> RState -> FS -> r_run Obj RState;
  r_assign : string -> pyval Obj -> RState -> exn + RState;
  Rconverter : pyval Obj -> exn + pyval Obj;
  pyconverter : pyval Obj -> exn + pyval Obj
}.

(** ** The world a magic runs in *)

Section RMagics.

Context `{B : Bridge}.

Abbreviation value := (pyval Obj).

(** [output] is [self.output], the chunks the console hook received;
    [user_ns] is [self.shell.user_ns]; [rstate] is the embedded R process;
    [fs] is the file system; [display] is what [publish_display_data] has
    sent, oldest first. *)
Record World : Type := mk_world {
  output : list string;
  user_ns : gmap string value;
  rstate : RState;
  fs : FS;
  display : list display_item
}.

Definition set_output (o : list string) (w : World) : World :=
  mk_world o (user_ns w) (rstate w) (fs w) (display w).
Definition set_user_ns (ns : gmap string value) (w : World) : World :=
  mk_world (output w) ns (rstate w) (fs w) (display w).
Definition set_rstate (s : RState) (w : World) : World :=
  mk_world (output w) (user_ns w) s (fs w) (display w).
Definition set_fs (f : FS) (w : World) : World :=
  mk_world (output w) (user_ns w) (rstate w) f (display w).
Definition set_display (d : list display_item) (w : World) : World :=
  mk_world (output w) (user_ns w) (rstate w) (fs w) d.

(** A method: from the world before to the world after and the exception
    raised or the value returned.  What was mutated before an exception
    stays mutated. *)
Definition M (A : Type) : Type := World -> World * (exn + A).

Definition ret {A} (a : A) : M A := fun w => (w, inr a).

Definition raise {A} (e : exn) : M A := fun w => (w, inl e).

Definition bind {A C} (m : M A) (k : A -> M C) : M C :=
  fun w =>
    match m w with
    | (w', inr a) => k a w'
    | (w', inl e) => (w', inl e)
    end.

#[local] Notation "x <- m ;; k" := (bind m (fun x => k))
  (at level 100, m at next level, right associativity).

(** A call that may raise but touches nothing. *)
Definition lift {A} (r : exn + A) : M A := fun w => (w, r).

(** [for x in xs: body(x)] *)
Fixpoint for_each {A} (body : A -> M unit) (xs : list A) : M unit :=
  match xs with
  | [] => ret tt
  | x :: rest => _ <- body x ;; for_each body rest
  end.

(** [[f(x) for x in xs]] *)
Fixpoint map_M {A C} (f : A -> M C) (xs : list A) : M (list C) :=
  match xs with
  | [] => ret []
  | x :: rest => y <- f x ;; ys <- map_M f rest ;; ret (y :: ys)
  end.

(** ** The interpreter seen from Python *)

(** [write_console]: the console hook appends the chunk to the buffer. *)
Definition write_console (chunk : string) : M unit :=
  fun w => (set_output (output w ++ [chunk]) w, inr tt).

(** The interpreter parses and evaluates [code]; every chunk it prints goes
    through [write_console], in order, before the call comes back. *)
Definition interp (code : string) : M (string + value) :=
  fun w =>
    let r := r_parse_eval code (rstate w) (fs w) in
    (set_output (output w ++ run_console r)
       (set_fs (run_fs r) (set_rstate (run_state r) w)),
     inr (run_result r)).

(** [self.r(code)]: an R error is raised to the caller. *)
Definition r_call (code : string) : M value :=
  res <- interp code ;;
  match res with
  | inr v => ret v
  | inl msg => raise (RRuntimeError msg)
  end.

(** [self.r.assign(name, v)] *)
Definition assign (name : string) (v : value) : M unit :=
  fun w =>
    match r_assign name v (rstate w) with
    | inr s => (set_rstate s w, inr tt)
    | inl e => (w, inl e)
    end.

Definition dquote : string := String "034"%char "".
Definition newline : string := String "010"%char "".

(** ['ERROR parsing "%s": %s\n' % (line, msg)] *)
Definition error_text (line msg : string) : string :=
  "ERROR parsing " +:+ dquote +:+ line +:+ dquote +:+ ": " +:+ msg +:+ newline.

(** [RMagics.eval]: an R error is caught, its diagnostic is appended to the
    buffer, and the method falls off its end, returning [None]. *)
Definition eval (line : string) : M value :=
  res <- interp line ;;
  match res with
  | inr v => ret v
  | inl msg => _ <- write_console (error_text line msg) ;; ret PNone
  end.

(** [RMagics.flush]: decode every chunk, and only then clear the buffer. *)
Definition flush : M unicode :=
  fun w =>
    match decode_all (output w) with
    | Some texts => (set_output [] w, inr (concat texts))
    | None => (w, inl UnicodeDecodeError)
    end.

(** ** The host shell *)

(** [self.shell.user_ns[name]] *)
Definition ns_get (name : string) : M value :=
  fun w =>
    match user_ns w !! name with
    | Some v => (w, inr v)
    | None => (w, inl (KeyError name))
    end.

(** [self.shell.push({name: v})] *)
Definition shell_push (name : string) (v : value) : M unit :=
  fun w => (set_user_ns (<[name := v]> (user_ns w)) w, inr tt).

(** [publish_display_data(source, {mime: data})] *)
Definition publish_display_data (source mime : string) (data : payload)
  : M unit :=
  fun w => (set_display (display w ++ [mk_item source mime data]) w, inr tt).

(** ** Pushing and pulling *)

(** The body of the push loop:
    [self.r.assign(input, self.pyconverter(self.shell.user_ns[input]))] *)
Definition push_one (name : string) : M unit :=
  v <- ns_get name ;;
  c <- lift (pyconverter v) ;;
  assign name c.

(** The body of the pull loop:
    [self.shell.push({output: self.Rconverter(self.r(output))})] *)
Definition pull_one (name : string) : M unit :=
  o <- r_call name ;;
  c <- lift (Rconverter o) ;;
  shell_push name c.

(** [RMagics.Rpush] *)
Definition Rpush (line : string) : M unit :=
  let inputs := split " "%char line in
  for_each push_one inputs.

(** [RMagics.Rpull] *)
Definition Rpull (line : string) : M unit :=
  let outputs := split " "%char line in
  for_each pull_one outputs.

(** ** Files *)

(** [tempfile.mkdtemp()]: a new, empty directory under a name no directory
    has yet. *)
Definition mkdtemp : M string :=
  fun w =>
    let d := fresh_string "/tmp/tmp" (fs w) in
    (set_fs (<[d := []]> (fs w)) w, inr d).

(** [fnmatch(name, 'Rplots*png')] *)
Definition is_plot_file (name : string) : bool :=
  startswith "Rplots" name && endswith "png" (string_drop 6 name).

(** [glob("%s/Rplots*png" % tmpd)]: the matching entries of the directory,
    as directory and file name, in the order the directory lists them;
    nothing when there is no such directory. *)
Definition glob (tmpd : string) : M (list (string * string)) :=
  fun w =>
    (w, inr (match fs w !! tmpd with
             | Some entries =>
                 map (fun e => (tmpd, fst e))
                     (List.filter (fun e => is_plot_file (fst e)) entries)
             | None => []
             end)).

(** The content of the first entry of that name. *)
Fixpoint entry_content (name : string) (entries : directory)
  : option string :=
  match entries with
  | [] => None
  | (n, c) :: rest =>
      if String.eqb n name then Some c else entry_content name rest
  end.

(** [file(imgfile).read()] *)
Definition file_read (imgfile : string * string) : M string :=
  fun w =>
    let path := fst imgfile +:+ "/" +:+ snd imgfile in
    match fs w !! fst imgfile with
    | Some entries =>
        match entry_content (snd imgfile) entries with
        | Some c => (w, inr c)
        | None => (w, inl (IOError path))
        end
    | None => (w, inl (IOError path))
    end.

(** [rmtree(tmpd)] *)
Definition rmtree (tmpd : string) : M unit :=
  fun w =>
    match fs w !! tmpd with
    | Some _ => (set_fs (delete tmpd (fs w)) w, inr tt)
    | None => (w, inl (OSError tmpd))
    end.

(** ** The [R] magic *)

(** The parsed argument string: [args.code], [args.input], [args.output]
    and the options of the png device.  An option that was not given is
    [None]. *)
Record Args : Type := mk_args {
  args_code : list string;
  args_input : option (list string);
  args_output : option (list string);
  args_width : option Z;
  args_height : option Z;
  args_units : option Z;
  args_pointsize : option Z;
  args_bg : option string
}.

(** [if names:] for an option collected with [action='append']. *)
Definition given (names : option (list string)) : bool :=
  match names with
  | Some (_ :: _) => true
  | _ => false
  end.

(** [','.join(names).split(',')] *)
Definition name_list (names : option (list string)) : list string :=
  split ","%char (join "," (default [] names)).

(** [png_argdict] and [png_args], the [name=value] pairs of the options
    that are not [None], joined by commas.  The pairs stand in the order in
    which the source lists the names; the order in which the Python dict
    iterates only permutes the named arguments of the [png] call. *)
Definition png_argdict (args : Args) : list (string * option string) :=
  [ ("units", pretty <$> args_units args);
    ("height", pretty <$> args_height args);
    ("width", pretty <$> args_width args);
    ("bg", args_bg args);
    ("pointsize", pretty <$> args_pointsize args) ].

Definition png_args (args : Args) : string :=
  join ","
    (omap (fun ov => match snd ov with
                     | Some v => Some (fst ov +:+ "=" +:+ v)
                     | None => None
                     end)
          (png_argdict args)).

(** ['png("%s/Rplots%%03d.png",%s)' % (tmpd, png_args)] *)
Definition png_command (tmpd pargs : string) : string :=
  "png(" +:+ dquote +:+ tmpd +:+ "/Rplots%03d.png" +:+ dquote +:+ ","
  +:+ pargs +:+ ")".

(** [mimetypes[fmt]] with [fmt = 'png'] *)
Definition mimetypes : list (string * string) :=
  [ ("png", "image/png"); ("svg", "image/svg+xml") ].

Definition mime : string :=
  Eval cbv in
    match List.find (fun kv => String.eqb (fst kv) "png") mimetypes with
    | Some kv => snd kv
    | None => ""
    end.

(** [args.code + lines]: the code of the argument string, then the lines
    of the cell. *)
Definition R_lines (args : Args) (cell : option string) : list string :=
  args_code args ++
  match cell with
  | None => []
  | Some body => split "010"%char body
  end.

(** [return_output] *)
Definition R_return_output (cell : option string) : bool :=
  match cell with
  | None => true
  | Some _ => false
  end.

(** Push the inputs, make the temporary directory and open the png device
    in it; the directory is the result. *)
Definition open_device (args : Args) : M string :=
  _ <- (if given (args_input args)
        then for_each push_one (name_list (args_input args))
        else ret tt) ;;
  tmpd <- mkdtemp ;;
  _ <- r_call (png_command tmpd (png_args args)) ;;
  ret tmpd.

(** [[file(imgfile).read() for imgfile in glob("%s/Rplots*png" % tmpd)]] *)
Definition read_images (tmpd : string) : M (list string) :=
  imgfiles <- glob tmpd ;;
  map_M file_read imgfiles.

(** The text item that a drained text gives: none when it is empty. *)
Definition text_items (text : unicode) : list display_item :=
  match text with
  | [] => []
  | _ :: _ => [mk_item "RMagic.R" "text/plain" (Text text)]
  end.

(** The image item of one png file. *)
Definition image_item (image : string) : display_item :=
  mk_item "RMagic.R" mime (Bytes image).

(** Publish the drained text, if any, then every image; the result is the
    [published] flag. *)
Definition publish_all (text : unicode) (images : list string) : M bool :=
  published <- (match text with
                | _ :: _ =>
                    _ <- publish_display_data "RMagic.R" "text/plain"
                           (Text text) ;;
                    ret true
                | [] => ret false
                end) ;;
  _ <- for_each (fun image =>
                   publish_display_data "RMagic.R" mime (Bytes image))
                images ;;
  ret (match images with
       | [] => published
       | _ :: _ => true
       end).

(** The last statements of [R]: what the call returns. *)
Definition return_value (return_output published : bool)
    (lines : list string) (result : list value) : M value :=
  if return_output && negb published then
    if (1 <? length lines)%nat then
      converted <- map_M (fun rr => lift (Rconverter rr)) result ;;
      ret (PList converted)
    else
      match lines with
      | _ :: _ =>
          match result with
          | r0 :: _ => lift (Rconverter r0)
          | [] => raise (OtherError "IndexError")
          end
      | [] => ret PNone
      end
  else ret PNone.

(** The first half of [R]: open the device, evaluate every line and close
    the device; the results are the temporary directory and the value of
    each line. *)
Definition run_code (args : Args) (lines : list string)
  : M (string * list value) :=
  tmpd <- open_device args ;;
  result <- map_M eval lines ;;
  _ <- r_call "dev.off()" ;;
  ret (tmpd, result).

(** [RMagics.R], with the argument string already parsed.  Flushing
    [sys.stdout] and [sys.stderr] before each image touches nothing of the
    world and is left out. *)
Definition R (args : Args) (cell : option string) : M value :=
  let lines := R_lines args cell in
  let return_output := R_return_output cell in
  ran <- run_code args lines ;;
  images <- read_images (fst ran) ;;
  text <- flush ;;
  published <- publish_all text images ;;
  _ <- (if given (args_output args)
        then for_each pull_one (name_list (args_output args))
        else ret tt) ;;
  _ <- rmtree (fst ran) ;;
  return_value return_output published lines (snd ran).

End RMagics.

Notation "x <- m ;; k" := (bind m (fun x => k))
  (at level 100, m at next level, right associativity).

(** ** Loading the extension *)

(** [load_ipython_extension(ip)]: the module-level flag [_loaded] is the
    state; a shell [ip] is the list of the magics classes registered in
    it, and [ip.register_magics(RMagics)] adds the class to it. *)
Definition load_ipython_extension (ip : list string) (_loaded : bool)
  : list string * bool :=
  if negb _loaded then (ip ++ ["RMagics"], true) else (ip, _loaded).

(** ** Notions the properties are stated with *)

Section Notions.

Context `{B : Bridge}.

(** The method leaves the observation [f] of the world as it was, whether
    it returns or raises. *)
Definition keeps {A X} (f : World -> X) (m : M A) : Prop :=
  forall w, f (fst (m w)) = f w.

(** In interpreter state [s] the code [name] is a plain variable lookup
    giving [v]: it prints nothing, writes no file and changes nothing. *)
Definition binds (s : RState) (name : string) (v : pyval Obj) : Prop :=
  forall f, r_parse_eval name s f = mk_run s f [] (inr v).

(** What assignment and lookup of identifiers promise each other in the
    interpreter: assigning an identifier succeeds, a later lookup gives
    the interpreter's representation [repr] of the value assigned, and
    the bindings of other identifiers stay. *)
Record env_laws (ident : string -> Prop)
    (repr : pyval Obj -> pyval Obj) : Prop := mk_env_laws {
  assign_succeeds : forall name v s,
    ident name -> exists s', r_assign name v s = inr s';
  assign_binds : forall name v s s',
    ident name -> r_assign name v s = inr s' -> binds s' name (repr v);
  assign_frame : forall name v s s' other u,
    ident other -> r_assign name v s = inr s' -> other <> name ->
    binds s other u -> binds s' other u
}.

(** The host-to-interpreter converter, the interpreter's representation,
    then the interpreter-to-host converter. *)
Definition round_trip (repr : pyval Obj -> pyval Obj) (v : pyval Obj)
  : exn + pyval Obj :=
  match pyconverter v with
  | inr c => Rconverter (repr c)
  | inl e => inl e
  end.

(** The [published] flag that a drained text and a list of images give. *)
Definition published_flag (text : unicode) (images : list string) : bool :=
  match text, images with
  | [], [] => false
  | _, _ => true
  end.

(** The method only appends to the buffer, whether it returns or
    raises. *)
Definition grows {A} (m : M A) : Prop :=
  forall w, exists more, output (fst (m w)) = output w ++ more.

(** The line has a blank field: it is empty, begins or ends with a space,
    or has two spaces in a row. *)
Definition blank_field (line : string) : Prop :=
  line = ""
  \/ (exists b, line = String " " b)
  \/ (exists a, line = a +:+ " ")
  \/ (exists a b, line = a +:+ String " " (String " " b)).

(** The items that [R] sends: from the source [RMagic.R], plain text or a
    png image. *)
Definition R_item (it : display_item) : Prop :=
  item_source it = "RMagic.R"
  /\ (item_mime it = "text/plain" \/ item_mime it = "image/png").

(** The results of evaluating the lines one after the other, each from
    the world that the line before it left: [results] has the value of
    the first line first. *)
Inductive evals_in_order : World -> list string -> list (pyval Obj) ->
    World -> Prop :=
  | evals_nil (w : World) : evals_in_order w [] [] w
  | evals_cons (w w1 w' : World) (line : string) (v : pyval Obj)
      (rest : list string) (vs : list (pyval Obj)) :
      eval line w = (w1, inr v) ->
      evals_in_order w1 rest vs w' ->
      evals_in_order w (line :: rest) (v :: vs) w'.

End Notions.

(** ** A small bridge to run the magics on

    An interpreter with a global environment, a console and a png device
    that writes one file per page, newest entry first in the listing of
    its directory, and converters that wrap a scalar into a one-element
    list the way [np.asarray] makes an array of it. *)

Module Toy.

Record state : Type := mk_state {
  env : gmap string (pyval Z);
  device : option string;
  pages : nat
}.

(** The page number as [%03d] prints it. *)
Definition pad3 (n : nat) : string :=
  let d := pretty n in
  match String.length d with
  | 1 => "00" +:+ d
  | 2 => "0" +:+ d
  | _ => d
  end.

Definition page_name (n : nat) : string := "Rplots" +:+ pad3 n +:+ ".png".

(** The characters before the first occurrence of [c]. *)
Fixpoint before (c : ascii) (s : string) : string :=
  match s with
  | EmptyString => ""
  | String d s' => if Ascii.eqb d c then "" else String d (before c s')
  end.

(** The directory named in a [png("<dir>/Rplots%03d.png",...)] call. *)
Definition device_dir (code : string) : string :=
  let pattern := before "034"%char (string_drop 5 code) in
  substring 0 (String.length pattern - 15) pattern.

(** A new page: one more file, listed before the older ones. *)
Definition new_page (s : state) (f : FS) : state * FS :=
  match device s with
  | Some d =>
      let n := S (pages s) in
      (mk_state (env s) (device s) n,
       match f !! d with
       | Some entries =>
           <[d := (page_name n, "PNG" +:+ pretty n) :: entries]> f
       | None => f
       end)
  | None => (s, f)
  end.

Definition run (code : string) (s : state) (f : FS) : r_run Z state :=
  if negb (occurs "("%char code) then
    match env s !! code with
    | Some v => mk_run s f [] (inr v)
    | None => mk_run s f [] (inl ("object '" +:+ code +:+ "' not found"))
    end
  else if startswith "png(" code then
    mk_run (mk_state (env s) (Some (device_dir code)) 0) f [] (inr PNone)
  else if String.eqb code "dev.off()" then
    mk_run (mk_state (env s) None 0) f [] (inr (PObj 1%Z))
  else if String.eqb code "plot()" then
    let '(s', f') := new_page s f in mk_run s' f' [] (inr PNone)
  else if startswith "cat(" code then
    mk_run s f [string_drop 4 code] (inr PNone)
  else
    mk_run s f [] (inl "could not evaluate").

Definition ident (name : string) : bool :=
  negb (String.eqb name "") && negb (occurs "("%char name).

Definition assign (name : string) (v : pyval Z) (s : state) : exn + state :=
  if String.eqb name "" then inl (OtherError "invalid first argument")
  else inr (mk_state (<[name := v]> (env s)) (device s) (pages s)).

Definition asarray (v : pyval Z) : exn + pyval Z :=
  match v with
  | PObj z => inr (PList [PObj z])
  | _ => inr v
  end.

Definition bridge : Bridge := mk_bridge Z state run assign asarray asarray.

(** A fresh session: nothing buffered, nothing defined, no directory, and
    nothing displayed. *)
Definition init (ns : gmap string (pyval Z)) : World (B := bridge) :=
  mk_world (B := bridge) [] ns (mk_state ∅ None 0) ∅ [].

Definition code_args (code : list string) : Args :=
  mk_args code None None None None None None None.

Definition out_args (code outs : list string) : Args :=
  mk_args code None (Some outs) None None None None None.

(** A session in which the interpreter has the given global variables and
    the host namespace is empty. *)
Definition with_env (e : gmap string (pyval Z)) : World (B := bridge) :=
  mk_world (B := bridge) [] ∅ (mk_state e None 0) ∅ [].

(** A session whose buffer holds what R printed in a Latin-1 locale:
    the bytes of "caf" and the single byte 0xE9. *)
Definition latin1_world : World (B := bridge) :=
  mk_world (B := bridge) ["caf" +:+ String "233"%char ""] ∅
    (mk_state ∅ None 0) ∅ [].

(** A session whose buffer holds two chunks of ASCII text. *)
Definition ascii_world : World (B := bridge) :=
  mk_world (B := bridge) ["ab"; "c"] ∅ (mk_state ∅ None 0) ∅ [].

(** Arguments with input names only. *)
Definition in_args (ins : list string) : Args :=
  mk_args [] (Some ins) None None None None None None.

(** An R without a png device: every evaluation is an error. *)
Definition no_device : Bridge :=
  mk_bridge Z state
    (fun code s f => mk_run s f [] (inl "unable to start png() device"))
    assign asarray asarray.

(** A new session on the R without a png device. *)
Definition no_device_world : World (B := no_device) :=
  mk_world (B := no_device) [] ∅ (mk_state ∅ None 0) ∅ [].

End Toy.

(** * Properties *)

(** ** Splitting and joining *)

Lemma split_not_nil (sep : ascii) (s : string) : split sep s <> [].
Proof.
  destruct s as [|c s]; simpl; [discriminate|].
  destruct (Ascii.eqb c sep); [discriminate|].
  destruct (split sep s); discriminate.
Qed.




Section Properties.

Context `{B : Bridge}.

(** ** The monad *)

Lemma bind_inr {A C} (m : M A) (k : A -> M C) w w1 a :
  m w = (w1, inr a) -> bind m k w = k a w1.
Proof. intros H. unfold bind. rewrite H. reflexivity. Qed.

Lemma bind_inl {A C} (m : M A) (k : A -> M C) w w1 e :
  m w = (w1, inl e) -> bind m k w = (w1, inl e).
Proof. intros H. unfold bind. rewrite H. reflexivity. Qed.

Lemma bind_inr_inv {A C} (m : M A) (k : A -> M C) w w' c :
  bind m k w = (w', inr c) ->
  exists w1 a, m w = (w1, inr a) /\ k a w1 = (w', inr c).
Proof.
  unfold bind. destruct (m w) as [w1 [e|a]]; intros H; [discriminate|].
  exists w1, a. split; [reflexivity|exact H].
Qed.

(** A run is the world it leaves and its outcome. *)
Lemma run_eq {A} (m : M A) (w : World) (r : exn + A) :
  snd (m w) = r -> m w = (fst (m w), r).
Proof. destruct (m w) as [w' r']. simpl. intros ->. reflexivity. Qed.

(** ** [eval] never raises *)

Lemma eval_returns (line : string) (w : World) :
  exists w' v, eval line w = (w', inr v).
Proof.
  unfold eval, bind, interp.
  destruct (run_result _); simpl; eauto.
Qed.

Lemma map_M_eval_returns (lines : list string) (w : World) :
  exists w' results,
    map_M eval lines w = (w', inr results) /\ length results = length lines.
Proof.
  revert w. induction lines as [|line rest IH]; intros w; simpl.
  - exists w, []. split; reflexivity.
  - destruct (eval_returns line w) as (w1 & v & Hv).
    destruct (IH w1) as (w2 & vs & Hvs & Hlen).
    exists w2, (v :: vs). split; [|simpl; congruence].
    rewrite (bind_inr _ _ _ _ _ Hv), (bind_inr _ _ _ _ _ Hvs).
    reflexivity.
Qed.

(** C3: when the interpreter reports an error (an [RRuntimeError]) on a
    line, [eval] returns [None] instead of raising; the buffer is what it
    was, then what the interpreter printed during the evaluation, then the
    one diagnostic, which reads [ERROR parsing ], the line between double
    quotes, a colon and a space, the message, and a newline; nothing else
    of the session changes, and the lines after it are evaluated from the
    world it leaves, one result per line. *)
Theorem eval_error_is_buffered (line msg : string) (rest : list string)
    (w : World) :
  run_result (r_parse_eval line (rstate w) (fs w)) = inl msg ->
  exists w',
    eval line w = (w', inr PNone)
    /\ output w' =
         output w ++ run_console (r_parse_eval line (rstate w) (fs w))
         ++ ["ERROR parsing "
             +:+ String "034"%char
                   (line
                    +:+ String "034"%char
                          (": " +:+ msg +:+ String "010"%char ""))]
    /\ user_ns w' = user_ns w
    /\ display w' = display w
    /\ exists w'' results,
         map_M eval rest w' = (w'', inr results)
         /\ length results = length rest
         /\ map_M eval (line :: rest) w = (w'', inr (PNone :: results)).
Proof.
  intros Herr.
  assert (Hev : exists w', eval line w = (w', inr PNone)
            /\ output w' =
                 output w ++ run_console (r_parse_eval line (rstate w) (fs w))
                 ++ [error_text line msg]
            /\ user_ns w' = user_ns w /\ display w' = display w).
  { unfold eval, bind, interp, write_console. rewrite Herr. simpl.
    eexists. split; [reflexivity|]. simpl.
    rewrite <- app_assoc. auto. }
  destruct Hev as (w' & Hev & Hout & Hns & Hdis).
  exists w'. split; [exact Hev|]. split; [exact Hout|].
  split; [exact Hns|]. split; [exact Hdis|].
  destruct (map_M_eval_returns rest w') as (w'' & results & Hrest & Hlen).
  exists w'', results. repeat split; try assumption.
  simpl. rewrite (bind_inr _ _ _ _ _ Hev), (bind_inr _ _ _ _ _ Hrest).
  reflexivity.
Qed.

End Properties.

(** C3 on a line the small interpreter cannot evaluate, with one line
    after it. *)
Lemma eval_error_is_buffered_witness :
  exists w',
    eval (B := Toy.bridge) "stop(" (Toy.init ∅) = (w', inr PNone)
    /\ output w'
       = ["ERROR parsing "
          +:+ String "034"%char
                ("stop("
                 +:+ String "034"%char
                       (": could not evaluate" +:+ String "010"%char ""))].
Proof.
  destruct (eval_error_is_buffered (B := Toy.bridge)
              "stop(" "could not evaluate" ["cat(ok"] (Toy.init ∅)
              eq_refl)
    as (w' & Hev & Hout & _).
  exists w'. split; [exact Hev|exact Hout].
Defined.

(** ** Draining the buffer *)

Lemma decode_utf8_nil_inv (s : string) : decode_utf8 s = Some [] -> s = "".
Proof.
  destruct s as [|c0 s1]; [reflexivity|]. simpl.
  repeat match goal with
         | |- context [if ?c then _ else _] => destruct c
         | |- context [match decode_utf8 ?s with _ => _ end] =>
             destruct (decode_utf8 s)
         | |- context [match ?s with EmptyString => _ | String _ _ => _ end] =>
             destruct s
         end; discriminate.
Qed.

Ltac decode_cases H :=
  repeat match type of H with
         | context [if ?c then _ else _] => destruct c eqn:?
         | context [match ?s with EmptyString => _ | String _ _ => _ end] =>
             destruct s; simpl in H |- *
         | None = Some _ => discriminate H
         end.

(** Chunks that decode on their own decode the same way when they are
    joined first. *)
Lemma decode_utf8_app (a b : string) (ta tb : unicode) :
  decode_utf8 a = Some ta -> decode_utf8 b = Some tb ->
  decode_utf8 (a +:+ b) = Some (ta ++ tb).
Proof.
  intros Ha Hb. revert ta Ha.
  remember (String.length a) as n eqn:Hn.
  assert (Hle : (String.length a <= n)%nat) by lia. clear Hn.
  revert a Hle. induction n as [|n IH]; intros a Hle ta Ha.
  - destruct a; simpl in Hle; [|lia].
    simpl in Ha. injection Ha as <-. exact Hb.
  - destruct a as [|c0 s1].
    { simpl in Ha. injection Ha as <-. exact Hb. }
    simpl in Ha |- *. simpl in Hle.
    decode_cases Ha;
      match type of Ha with
      | context [decode_utf8 ?s] =>
          destruct (decode_utf8 s) as [t|] eqn:Hs; [|discriminate Ha];
          injection Ha as <-;
          rewrite (IH s ltac:(simpl in *; lia) t Hs); reflexivity
      end.
Qed.

Lemma append_empty_r (s : string) : s +:+ "" = s.
Proof.
  induction s as [|c s IH]; [reflexivity|].
  change (String c (s +:+ "") = String c s). f_equal. exact IH.
Qed.

Lemma decode_all_join (chunks : list string) (texts : list unicode) :
  decode_all chunks = Some texts ->
  decode_utf8 (join "" chunks) = Some (concat texts).
Proof.
  revert texts. induction chunks as [|c rest IH]; intros texts H.
  - simpl in H. injection H as <-. reflexivity.
  - simpl in H.
    destruct (decode_utf8 c) as [t|] eqn:Hc; [|discriminate].
    destruct (decode_all rest) as [ts|] eqn:Hr; [|discriminate].
    injection H as <-.
    assert (Hj : join "" (c :: rest) = c +:+ join "" rest).
    { destruct rest; simpl; [|reflexivity]. symmetry. apply append_empty_r. }
    rewrite Hj. simpl. apply decode_utf8_app; [exact Hc|]. auto.
Qed.

Section Drain.

Context `{B : Bridge}.

(** C6, amended: when every buffered chunk is valid UTF-8 on its own,
    [flush] returns the decoded chunks concatenated in arrival order,
    which is also the decoding of the concatenated chunks, and leaves the
    buffer empty and the rest of the session as it was, so that flushing
    again at once returns the empty text. *)
Theorem flush_reads_and_clears (w : World) (texts : list unicode) :
  decode_all (output w) = Some texts ->
  exists w',
    flush w = (w', inr (concat texts))
    /\ decode_utf8 (join "" (output w)) = Some (concat texts)
    /\ output w' = []
    /\ user_ns w' = user_ns w /\ rstate w' = rstate w
    /\ fs w' = fs w /\ display w' = display w
    /\ flush w' = (w', inr []).
Proof.
  intros Hdec. exists (set_output [] w).
  unfold flush. rewrite Hdec. simpl.
  repeat split. apply decode_all_join, Hdec.
Qed.

(** A chunk that does not decode makes [flush] raise before the buffer is
    cleared. *)
Lemma flush_raises_keeps_buffer (w : World) :
  decode_all (output w) = None ->
  flush w = (w, inl UnicodeDecodeError).
Proof. intros Hdec. unfold flush. rewrite Hdec. reflexivity. Qed.

End Drain.

(** C6 on a buffer of two ASCII chunks. *)
Lemma flush_reads_and_clears_witness :
  exists w',
    flush Toy.ascii_world = (w', inr [97; 98; 99]%N) /\ output w' = [].
Proof.
  destruct (flush_reads_and_clears (B := Toy.bridge) Toy.ascii_world
              [[97; 98]%N; [99]%N] eq_refl)
    as (w' & Hflush & _ & Hout & _).
  exists w'. split; [exact Hflush|exact Hout].
Defined.

(** C6 as stated fails: with a chunk that is not valid UTF-8 in the buffer
    (text printed in a Latin-1 locale), draining raises
    [UnicodeDecodeError] and the buffer still holds the chunk. *)
Lemma flush_undecodable_chunk_stays :
  flush Toy.latin1_world = (Toy.latin1_world, inl UnicodeDecodeError)
  /\ output (fst (flush Toy.latin1_world)) <> []
  /\ ~ (exists w' text,
          flush Toy.latin1_world = (w', inr text) /\ output w' = []).
Proof.
  assert (H : flush Toy.latin1_world
              = (Toy.latin1_world, inl UnicodeDecodeError))
    by (apply flush_raises_keeps_buffer; reflexivity).
  split; [exact H|]. split.
  - rewrite H. discriminate.
  - intros (w' & text & Hf & _). rewrite H in Hf. discriminate.
Qed.

(** ** What a method leaves alone *)

Section Frames.

Context `{B : Bridge}.

Lemma keeps_ret {A X} (f : World -> X) (a : A) : keeps f (ret a).
Proof. intros w. reflexivity. Qed.

Lemma keeps_raise {A X} (f : World -> X) (e : exn) : keeps f (raise (A := A) e).
Proof. intros w. reflexivity. Qed.

Lemma keeps_lift {A X} (f : World -> X) (r : exn + A) : keeps f (lift r).
Proof. intros w. reflexivity. Qed.

Lemma keeps_bind {A C X} (f : World -> X) (m : M A) (k : A -> M C) :
  keeps f m -> (forall a, keeps f (k a)) -> keeps f (bind m k).
Proof.
  intros Hm Hk w. unfold bind. specialize (Hm w).
  destruct (m w) as [w1 [e|a]]; simpl in *; [exact Hm|].
  rewrite Hk. exact Hm.
Qed.

Lemma keeps_for_each {A X} (f : World -> X) (body : A -> M unit) xs :
  (forall x, x ∈ xs -> keeps f (body x)) -> keeps f (for_each body xs).
Proof.
  induction xs as [|x rest IH]; intros Hbody; simpl.
  - apply keeps_ret.
  - apply keeps_bind; [apply Hbody; left|intros _].
    apply IH. intros y Hy. apply Hbody. right. exact Hy.
Qed.

Lemma keeps_map_M {A C X} (f : World -> X) (g : A -> M C) xs :
  (forall x, keeps f (g x)) -> keeps f (map_M g xs).
Proof.
  intros Hg. induction xs as [|x rest IH]; simpl.
  - apply keeps_ret.
  - apply keeps_bind; [apply Hg|intros y].
    apply keeps_bind; [exact IH|intros ys]. apply keeps_ret.
Qed.

End Frames.

(** A primitive keeps an observation when no branch of it touches the
    field observed. *)
Ltac keeps_prim :=
  intros ?w;
  unfold write_console, interp, assign, flush, ns_get, shell_push,
    publish_display_data, mkdtemp, glob, file_read, rmtree, lift, ret, raise;
  cbv beta; repeat case_match; reflexivity.

(** A method built from binds and loops keeps what its parts keep. *)
Ltac keeps_step :=
  first
    [ apply keeps_ret | apply keeps_raise | apply keeps_lift
    | apply keeps_bind; [|intros ?]
    | apply keeps_for_each; intros ? ?
    | apply keeps_map_M; intros ?
    | match goal with
      | |- keeps _ (if ?c then _ else _) => destruct c
      | |- keeps _ (match ?x with _ => _ end) => destruct x
      end
    | progress unfold r_call, eval, push_one, pull_one, open_device,
        read_images, publish_all, return_value, run_code
    | keeps_prim ].

Ltac keeps_auto := repeat keeps_step.

Section Namespace.

Context `{B : Bridge}.

Lemma push_one_keeps_user_ns name : keeps user_ns (push_one name).
Proof. keeps_auto. Qed.

Lemma push_one_keeps_output name : keeps output (push_one name).
Proof. keeps_auto. Qed.

Lemma push_one_keeps_display name : keeps display (push_one name).
Proof. keeps_auto. Qed.

Lemma push_one_keeps_fs name : keeps fs (push_one name).
Proof. keeps_auto. Qed.

Lemma pull_one_keeps_other name k :
  k <> name -> keeps (fun w => user_ns w !! k) (pull_one name).
Proof.
  intros Hne. unfold pull_one. keeps_auto.
  intros w. unfold shell_push. simpl. apply lookup_insert_ne. congruence.
Qed.

Lemma run_code_keeps_user_ns args lines : keeps user_ns (run_code args lines).
Proof. keeps_auto. Qed.

Lemma run_code_keeps_display args lines : keeps display (run_code args lines).
Proof. keeps_auto. Qed.

Lemma return_value_keeps {X} (f : World -> X) ro p lines result :
  keeps f (return_value ro p lines result).
Proof. keeps_auto. Qed.

(** C9: [R] writes into the host namespace only under the names listed as
    outputs; when no output names are given the host namespace after the
    call, returned or raised, is the one before it. *)
Theorem R_writes_only_outputs (args : Args) (cell : option string)
    (w : World) :
  (forall k, k ∉ name_list (args_output args) ->
             user_ns (fst (R args cell w)) !! k = user_ns w !! k)
  /\ (given (args_output args) = false ->
      user_ns (fst (R args cell w)) = user_ns w).
Proof.
  split.
  - intros k Hk.
    assert (H : keeps (fun w => user_ns w !! k) (R args cell)).
    { unfold R. keeps_auto.
      intros w'. simpl. apply lookup_insert_ne. congruence. }
    apply H.
  - intros Hno.
    assert (H : keeps user_ns (R args cell)).
    { unfold R. rewrite Hno. keeps_auto. }
    apply H.
Qed.

End Namespace.

(** C9 on a call in line form that evaluates one line and names no
    output. *)
Lemma R_writes_only_outputs_witness :
  user_ns (fst (R (B := Toy.bridge) (Toy.code_args ["cat(hi"]) None
                  (Toy.init {["x" := PObj 1%Z]})))
  = {["x" := PObj 1%Z]}.
Proof.
  exact (proj2 (R_writes_only_outputs (B := Toy.bridge)
                  (Toy.code_args ["cat(hi"]) None
                  (Toy.init {["x" := PObj 1%Z]})) eq_refl).
Defined.

(** ** The push and pull loops *)

Section Loops.

Context `{B : Bridge}.

Lemma for_each_app {A} (body : A -> M unit) (xs ys : list A) (w : World) :
  for_each body (xs ++ ys) w =
  match for_each body xs w with
  | (w1, inr _) => for_each body ys w1
  | (w1, inl e) => (w1, inl e)
  end.
Proof.
  revert w. induction xs as [|x rest IH]; intros w; simpl; [reflexivity|].
  unfold bind. destruct (body x w) as [w1 [e|[]]]; [reflexivity|].
  apply IH.
Qed.

Lemma push_one_absent (name : string) (w : World) :
  user_ns w !! name = None -> push_one name w = (w, inl (KeyError name)).
Proof.
  intros Habs. unfold push_one, bind, ns_get. rewrite Habs. reflexivity.
Qed.

(** The push loop cannot get past a name the host namespace does not
    have. *)
Lemma push_loop_absent (names : list string) (n : string) (w : World) :
  n ∈ names -> user_ns w !! n = None ->
  exists w' e, for_each push_one names w = (w', inl e).
Proof.
  revert w. induction names as [|x rest IH]; intros w Hin Habs.
  - inversion Hin.
  - simpl. unfold bind.
    destruct (push_one x w) as [w1 [e|[]]] eqn:Hx; [eauto|].
    apply elem_of_cons in Hin as [->|Hin].
    + rewrite (push_one_absent _ _ Habs) in Hx. discriminate.
    + apply IH; [exact Hin|].
      pose proof (push_one_keeps_user_ns x w) as Hk.
      rewrite Hx in Hk. simpl in Hk. rewrite Hk. exact Habs.
Qed.

(** An exception of the push loop is the [KeyError] of a name that the
    host namespace does not have, or what the converter or the assignment
    raised for a name that it has. *)
Lemma push_loop_error (names : list string) (w w' : World) (e : exn) :
  for_each push_one names w = (w', inl e) ->
  (exists m, m ∈ names /\ user_ns w !! m = None /\ e = KeyError m)
  \/ (exists m v, m ∈ names /\ user_ns w !! m = Some v
        /\ (pyconverter v = inl e
            \/ exists c s, pyconverter v = inr c /\ r_assign m c s = inl e)).
Proof.
  revert w. induction names as [|x rest IH]; intros w Hrun.
  - discriminate.
  - simpl in Hrun. unfold bind in Hrun.
    destruct (push_one x w) as [w1 [e1|[]]] eqn:Hx.
    + injection Hrun as <- <-.
      unfold push_one, bind, ns_get, lift, assign in Hx.
      destruct (user_ns w !! x) as [v|] eqn:Hv.
      * right. exists x, v. split; [left|]. split; [exact Hv|].
        destruct (pyconverter v) as [ec|c] eqn:Hc.
        -- left. congruence.
        -- right. exists c, (rstate w). split; [reflexivity|].
           destruct (r_assign x c (rstate w)); congruence.
      * left. exists x. split; [left|]. split; [exact Hv|]. congruence.
    + pose proof (push_one_keeps_user_ns x w) as Hk.
      rewrite Hx in Hk. simpl in Hk.
      destruct (IH w1 Hrun) as [(m & Hm & Habs & He)|(m & v & Hm & Hv & He)].
      * left. exists m. rewrite <- Hk. split; [right; exact Hm|]. auto.
      * right. exists m, v. rewrite <- Hk. split; [right; exact Hm|]. auto.
Qed.

Lemma push_loop_keeps_user_ns names : keeps user_ns (for_each push_one names).
Proof. keeps_auto. Qed.

Lemma push_loop_keeps_output names : keeps output (for_each push_one names).
Proof. keeps_auto. Qed.

Lemma push_loop_keeps_display names : keeps display (for_each push_one names).
Proof. keeps_auto. Qed.

Lemma push_loop_keeps_fs names : keeps fs (for_each push_one names).
Proof. keeps_auto. Qed.

(** C7: a push whose line holds a name that the host namespace does not
    have never returns: it raises, and what it raises is not turned into
    buffered text, for the buffer, the host namespace, the files and the
    display are as before.  The exception is the [KeyError] of that name,
    the lookup failure in [shell.user_ns], once the loop has pushed the
    names before it. *)
Theorem Rpush_absent_name_raises (line n : string) (w : World) :
  n ∈ split " "%char line ->
  user_ns w !! n = None ->
  (exists w' e,
      Rpush line w = (w', inl e)
      /\ output w' = output w /\ user_ns w' = user_ns w
      /\ display w' = display w /\ fs w' = fs w)
  /\ (forall pre post w1,
        split " "%char line = pre ++ n :: post ->
        for_each push_one pre w = (w1, inr tt) ->
        Rpush line w = (w1, inl (KeyError n))).
Proof.
  intros Hin Habs. split.
  - destruct (push_loop_absent _ _ _ Hin Habs) as (w' & e & Hrun).
    exists w', e. unfold Rpush.
    pose proof (push_loop_keeps_output (split " "%char line) w) as Ho.
    pose proof (push_loop_keeps_user_ns (split " "%char line) w) as Hn.
    pose proof (push_loop_keeps_display (split " "%char line) w) as Hd.
    pose proof (push_loop_keeps_fs (split " "%char line) w) as Hf.
    rewrite Hrun in Ho, Hn, Hd, Hf. simpl in *. auto.
  - intros pre post w1 Hsplit Hpre. unfold Rpush.
    rewrite Hsplit, for_each_app, Hpre. simpl. unfold bind.
    pose proof (push_loop_keeps_user_ns pre w) as Hn.
    rewrite Hpre in Hn. simpl in Hn.
    rewrite push_one_absent by (rewrite Hn; exact Habs). reflexivity.
Qed.

(** X18: the same loop runs for the [-i] names of [R], before the
    temporary directory is made: an absent input name makes [R] raise
    with no directory created, nothing buffered and nothing displayed. *)
Lemma R_absent_input_raises (args : Args) (cell : option string) (n : string)
    (w : World) :
  given (args_input args) = true ->
  n ∈ name_list (args_input args) ->
  user_ns w !! n = None ->
  exists w' e,
    R args cell w = (w', inl e)
    /\ output w' = output w /\ user_ns w' = user_ns w
    /\ display w' = display w /\ fs w' = fs w.
Proof.
  intros Hgiven Hin Habs.
  destruct (push_loop_absent _ _ _ Hin Habs) as (w' & e & Hrun).
  exists w', e.
  pose proof (push_loop_keeps_output (name_list (args_input args)) w) as Ho.
  pose proof (push_loop_keeps_user_ns (name_list (args_input args)) w) as Hn.
  pose proof (push_loop_keeps_display (name_list (args_input args)) w) as Hd.
  pose proof (push_loop_keeps_fs (name_list (args_input args)) w) as Hf.
  rewrite Hrun in Ho, Hn, Hd, Hf. simpl in *.
  repeat split; try assumption.
  unfold R, run_code, open_device. rewrite Hgiven.
  repeat (erewrite bind_inl; [reflexivity|]). exact Hrun.
Qed.

Lemma pull_one_grows (name m : string) (w : World) :
  is_Some (user_ns w !! m) -> is_Some (user_ns (fst (pull_one name w)) !! m).
Proof.
  intros Hm. unfold pull_one, bind, r_call, bind, interp, lift, shell_push,
    ret, raise.
  simpl. repeat case_match; simplify_eq; simpl; try exact Hm.
  destruct (decide (name = m)) as [->|Hne].
  - rewrite lookup_insert_eq. eauto.
  - rewrite lookup_insert_ne by exact Hne. exact Hm.
Qed.

Lemma pull_one_writes (name : string) (w w' : World) :
  pull_one name w = (w', inr tt) -> is_Some (user_ns w' !! name).
Proof.
  unfold pull_one, bind, r_call, bind, interp, lift, shell_push, ret, raise.
  simpl. intros H. repeat case_match; simplify_eq; simpl.
  rewrite lookup_insert_eq. eauto.
Qed.

(** A pull loop that returns has written every one of its names. *)
Lemma pull_loop_writes (names : list string) (w w' : World) :
  for_each pull_one names w = (w', inr tt) ->
  forall m, m ∈ names -> is_Some (user_ns w' !! m).
Proof.
  revert w. induction names as [|x rest IH]; intros w Hrun m Hin.
  - inversion Hin.
  - simpl in Hrun. apply bind_inr_inv in Hrun as (w1 & [] & Hx & Hrest).
    destruct (decide (m ∈ rest)) as [Hm|Hm]; [exact (IH _ Hrest _ Hm)|].
    apply elem_of_cons in Hin as [->|Hin]; [|contradiction].
    pose proof (pull_one_writes _ _ _ Hx) as Hsome.
    clear IH Hx Hm. revert w1 Hrest Hsome.
    induction rest as [|y rest IH]; intros w1 Hrest Hsome.
    + simpl in Hrest. injection Hrest as <-. exact Hsome.
    + simpl in Hrest. apply bind_inr_inv in Hrest as (w2 & [] & Hy & Hrest).
      apply (IH w2 Hrest).
      pose proof (pull_one_grows y x w1 Hsome) as Hg.
      rewrite Hy in Hg. exact Hg.
Qed.

Lemma pull_one_fails (name msg : string) (w : World) :
  run_result (r_parse_eval name (rstate w) (fs w)) = inl msg ->
  exists w',
    pull_one name w = (w', inl (RRuntimeError msg))
    /\ user_ns w' = user_ns w.
Proof.
  intros Herr. eexists. split.
  - unfold pull_one, bind, r_call, bind, interp. rewrite Herr. reflexivity.
  - reflexivity.
Qed.

(** C10: [Rpull] fetches and assigns one name at a time.  When the names
    before [n] have been pulled and evaluating [n] fails in the
    interpreter, the error propagates and the host namespace is the one
    the pulls before it left: every earlier name is bound in it. *)
Theorem Rpull_not_atomic (line n msg : string) (pre post : list string)
    (w w1 : World) :
  split " "%char line = pre ++ n :: post ->
  for_each pull_one pre w = (w1, inr tt) ->
  run_result (r_parse_eval n (rstate w1) (fs w1)) = inl msg ->
  exists w2,
    Rpull line w = (w2, inl (RRuntimeError msg))
    /\ user_ns w2 = user_ns w1
    /\ forall m, m ∈ pre -> is_Some (user_ns w2 !! m).
Proof.
  intros Hsplit Hpre Herr.
  destruct (pull_one_fails n msg w1 Herr) as (w2 & Hn & Hns).
  exists w2. split; [|split].
  - unfold Rpull. rewrite Hsplit, for_each_app, Hpre. simpl.
    apply bind_inl. exact Hn.
  - exact Hns.
  - intros m Hm. rewrite Hns. exact (pull_loop_writes _ _ _ Hpre m Hm).
Qed.

(** The loop over the [-o] names of [R] is the same loop. *)
Lemma pull_loop_not_atomic (n msg : string) (pre post : list string)
    (w w1 : World) :
  for_each pull_one pre w = (w1, inr tt) ->
  run_result (r_parse_eval n (rstate w1) (fs w1)) = inl msg ->
  exists w2,
    for_each pull_one (pre ++ n :: post) w = (w2, inl (RRuntimeError msg))
    /\ user_ns w2 = user_ns w1.
Proof.
  intros Hpre Herr.
  destruct (pull_one_fails n msg w1 Herr) as (w2 & Hn & Hns).
  exists w2. split; [|exact Hns].
  rewrite for_each_app, Hpre. simpl. apply bind_inl. exact Hn.
Qed.

End Loops.

(** C7 on the line [a b] when the host namespace has [a] only. *)
Lemma Rpush_absent_name_raises_witness :
  exists w',
    Rpush (B := Toy.bridge) "a b" (Toy.init {["a" := PObj 1%Z]})
    = (w', inl (KeyError "b")).
Proof.
  exists (fst (for_each (B := Toy.bridge) push_one ["a"]
                 (Toy.init {["a" := PObj 1%Z]}))).
  refine (proj2 (Rpush_absent_name_raises (B := Toy.bridge) "a b" "b"
                   (Toy.init {["a" := PObj 1%Z]}) _ _) ["a"] [] _ _ _).
  - apply list_elem_of_In. simpl. auto.
  - vm_compute. reflexivity.
  - reflexivity.
  - apply (run_eq (B := Toy.bridge)). vm_compute. reflexivity.
Defined.

(** C10 on the line [a zz] when the interpreter has [a] only: the error of
    [zz] propagates and [a] is already in the host namespace, which was
    empty. *)
Lemma Rpull_not_atomic_witness :
  exists w2,
    Rpull (B := Toy.bridge) "a zz" (Toy.with_env {["a" := PObj 5%Z]})
    = (w2, inl (RRuntimeError "object 'zz' not found"))
    /\ is_Some (user_ns w2 !! "a").
Proof.
  assert (Hpre : for_each (B := Toy.bridge) pull_one ["a"]
                   (Toy.with_env {["a" := PObj 5%Z]})
                 = (fst (for_each (B := Toy.bridge) pull_one ["a"]
                           (Toy.with_env {["a" := PObj 5%Z]})), inr tt))
    by (apply (run_eq (B := Toy.bridge)); vm_compute; reflexivity).
  destruct (Rpull_not_atomic (B := Toy.bridge) "a zz" "zz"
              "object 'zz' not found" ["a"] []
              (Toy.with_env {["a" := PObj 5%Z]}) _
              eq_refl Hpre)
    as (w2 & Hrun & _ & Hsome); [vm_compute; reflexivity|].
  exists w2. split; [exact Hrun|].
  apply Hsome. apply list_elem_of_In. simpl. auto.
Defined.

(** ** Pushing, then pulling *)

Section RoundTrip.

Context `{B : Bridge}.
Variable ident : string -> Prop.
Variable repr : pyval Obj -> pyval Obj.
Hypothesis laws : env_laws ident repr.

Lemma binds_functional (s : RState) (name : string) (u u' : pyval Obj) :
  binds s name u -> binds s name u' -> u = u'.
Proof.
  intros Hu Hu'. specialize (Hu ∅). specialize (Hu' ∅).
  rewrite Hu in Hu'. congruence.
Qed.

Lemma push_one_assigns (name : string) (v c : pyval Obj) (s' : RState)
    (w : World) :
  user_ns w !! name = Some v -> pyconverter v = inr c ->
  r_assign name c (rstate w) = inr s' ->
  push_one name w = (set_rstate s' w, inr tt).
Proof.
  intros Hv Hc Hs. unfold push_one, bind, ns_get, lift, assign.
  rewrite Hv, Hc, Hs. reflexivity.
Qed.

(** After the push loop every pushed identifier is bound, in the
    interpreter, to the representation of its converted host value, and
    the names the loop did not push are bound as before. *)
Lemma push_loop_binds (names : list string) (w : World) :
  (forall n, n ∈ names ->
     ident n /\ exists v c, user_ns w !! n = Some v /\ pyconverter v = inr c) ->
  exists w1,
    for_each push_one names w = (w1, inr tt)
    /\ (forall n v c, n ∈ names -> user_ns w !! n = Some v ->
          pyconverter v = inr c -> binds (rstate w1) n (repr c))
    /\ (forall m u, ident m -> m ∉ names -> binds (rstate w) m u ->
          binds (rstate w1) m u).
Proof.
  revert w. induction names as [|x rest IH]; intros w Hall.
  - exists w. split; [reflexivity|]. split; [|auto].
    intros n v c Hin. inversion Hin.
  - destruct (Hall x ltac:(left)) as (Hid & v & c & Hv & Hc).
    destruct (assign_succeeds _ _ laws x c (rstate w) Hid) as (s' & Hs).
    pose proof (push_one_assigns _ _ _ _ _ Hv Hc Hs) as Hx.
    destruct (IH (set_rstate s' w)) as (w1 & Hrun & Hbound & Hframe).
    { intros n Hn. apply Hall. right. exact Hn. }
    exists w1. split; [|split].
    + simpl. rewrite (bind_inr _ _ _ _ _ Hx). exact Hrun.
    + intros n v0 c0 Hin Hv0 Hc0.
      destruct (decide (n ∈ rest)) as [Hn|Hn].
      * exact (Hbound n v0 c0 Hn Hv0 Hc0).
      * apply elem_of_cons in Hin as [->|Hin]; [|contradiction].
        assert (v0 = v) by congruence. subst v0.
        assert (c0 = c) by congruence. subst c0.
        apply Hframe; [exact Hid|exact Hn|].
        exact (assign_binds _ _ laws x c (rstate w) s' Hid Hs).
    + intros m u Him Hm Hbm. apply not_elem_of_cons in Hm as [Hne Hm].
      apply Hframe; [exact Him|exact Hm|].
      exact (assign_frame _ _ laws x c (rstate w) s' m u Him Hs Hne Hbm).
Qed.

Lemma pull_one_bound (name : string) (u back : pyval Obj) (w : World) :
  binds (rstate w) name u -> Rconverter u = inr back ->
  exists w',
    pull_one name w = (w', inr tt)
    /\ rstate w' = rstate w
    /\ user_ns w' = <[name := back]> (user_ns w).
Proof.
  intros Hb Hc. eexists. split; [|split].
  - unfold pull_one, bind, r_call, bind, interp, lift, shell_push.
    rewrite (Hb (fs w)). simpl. rewrite Hc. reflexivity.
  - reflexivity.
  - reflexivity.
Qed.

(** A pull loop over names that are all bound returns, leaves the
    interpreter as it was, and writes the converted binding of each
    name. *)
Lemma pull_loop_bound (names : list string) (w : World) :
  (forall n, n ∈ names ->
     exists u back, binds (rstate w) n u /\ Rconverter u = inr back) ->
  exists w2,
    for_each pull_one names w = (w2, inr tt)
    /\ rstate w2 = rstate w
    /\ (forall n u back, n ∈ names -> binds (rstate w) n u ->
          Rconverter u = inr back -> user_ns w2 !! n = Some back)
    /\ (forall k, k ∉ names -> user_ns w2 !! k = user_ns w !! k).
Proof.
  revert w. induction names as [|x rest IH]; intros w Hall.
  - exists w. split; [reflexivity|]. split; [reflexivity|].
    split; [|auto]. intros n u back Hin. inversion Hin.
  - destruct (Hall x ltac:(left)) as (u & back & Hb & Hc).
    destruct (pull_one_bound _ _ _ _ Hb Hc) as (wa & Hx & Hrs & Hns).
    destruct (IH wa) as (w2 & Hrun & Hrs2 & Hbound & Hframe).
    { intros n Hn. rewrite Hrs. apply Hall. right. exact Hn. }
    exists w2. split; [|split; [|split]].
    + simpl. rewrite (bind_inr _ _ _ _ _ Hx). exact Hrun.
    + congruence.
    + intros n u0 back0 Hin Hb0 Hc0.
      destruct (decide (n ∈ rest)) as [Hn|Hn].
      * apply (Hbound n u0 back0 Hn); [rewrite Hrs; exact Hb0|exact Hc0].
      * apply elem_of_cons in Hin as [->|Hin]; [|contradiction].
        rewrite (Hframe x Hn), Hns, lookup_insert_eq.
        assert (u0 = u) by exact (binds_functional _ _ _ _ Hb0 Hb).
        congruence.
    + intros k Hk. apply not_elem_of_cons in Hk as [Hne Hk].
      rewrite (Hframe k Hk), Hns. apply lookup_insert_ne. congruence.
Qed.

(** C5: for a line of identifiers that are all in the host namespace with
    values on which the conversion round trip is defined, [Rpush] of the
    line returns, [Rpull] of the same line after it returns, and then
    every name of the line is bound in the host namespace to the round
    trip of its original value; the other names of the host namespace are
    as before. *)
Theorem push_then_pull_round_trip (line : string) (w : World) :
  (forall n, n ∈ split " "%char line ->
     ident n /\ exists v back,
       user_ns w !! n = Some v /\ round_trip repr v = inr back) ->
  exists w1 w2,
    Rpush line w = (w1, inr tt)
    /\ Rpull line w1 = (w2, inr tt)
    /\ (forall n v, n ∈ split " "%char line -> user_ns w !! n = Some v ->
          exists back,
            round_trip repr v = inr back /\ user_ns w2 !! n = Some back)
    /\ (forall k, k ∉ split " "%char line ->
          user_ns w2 !! k = user_ns w !! k).
Proof.
  intros Hall. unfold Rpush, Rpull.
  set (names := split " "%char line) in *.
  assert (Hconv : forall n, n ∈ names ->
            exists v c back, user_ns w !! n = Some v
              /\ pyconverter v = inr c /\ Rconverter (repr c) = inr back).
  { intros n Hn. destruct (Hall n Hn) as (_ & v & back & Hv & Hrt).
    unfold round_trip in Hrt.
    destruct (pyconverter v) as [e|c] eqn:Hc; [discriminate|].
    exists v, c, back. auto. }
  destruct (push_loop_binds names w) as (w1 & Hpush & Hbound & _).
  { intros n Hn. split; [exact (proj1 (Hall n Hn))|].
    destruct (Hconv n Hn) as (v & c & back & Hv & Hc & _). eauto. }
  pose proof (push_loop_keeps_user_ns names w) as Hns.
  rewrite Hpush in Hns. simpl in Hns.
  destruct (pull_loop_bound names w1) as (w2 & Hpull & _ & Hback & Hframe).
  { intros n Hn. destruct (Hconv n Hn) as (v & c & back & Hv & Hc & Hr).
    exists (repr c), back. split; [|exact Hr].
    exact (Hbound n v c Hn Hv Hc). }
  exists w1, w2. split; [exact Hpush|]. split; [exact Hpull|]. split.
  - intros n v Hn Hv.
    destruct (Hconv n Hn) as (v' & c & back & Hv' & Hc & Hr).
    assert (v' = v) by congruence. subst v'.
    exists back. split.
    + unfold round_trip. rewrite Hc. exact Hr.
    + exact (Hback n (repr c) back Hn (Hbound n v c Hn Hv Hc) Hr).
  - intros k Hk. rewrite (Hframe k Hk), Hns. reflexivity.
Qed.

End RoundTrip.

(** The small interpreter keeps the laws of assignment and lookup on the
    names without a parenthesis, and represents a value as itself. *)
Lemma toy_env_laws :
  env_laws (B := Toy.bridge) (fun n => Toy.ident n = true) (fun v => v).
Proof.
  split.
  - intros name v s Hid. unfold Toy.ident in Hid.
    apply andb_true_iff in Hid as [Hne _].
    simpl. unfold Toy.assign.
    destruct (String.eqb name ""); [discriminate|eauto].
  - intros name v s s' Hid Hs f. unfold Toy.ident in Hid.
    apply andb_true_iff in Hid as [Hne Hparen].
    simpl in Hs. unfold Toy.assign in Hs.
    destruct (String.eqb name ""); [discriminate|].
    injection Hs as <-. simpl. unfold Toy.run. rewrite Hparen. simpl.
    rewrite lookup_insert_eq. reflexivity.
  - intros name v s s' other u Hid Hs Hne Hb f.
    specialize (Hb f). unfold Toy.ident in Hid.
    apply andb_true_iff in Hid as [_ Hparen].
    cbv [Toy.bridge Obj RState r_parse_eval r_assign] in *.
    unfold Toy.assign in Hs.
    destruct (String.eqb name ""); [discriminate|].
    injection Hs as <-. unfold Toy.run in Hb |- *.
    rewrite Hparen in Hb |- *.
    simpl. rewrite lookup_insert_ne by congruence.
    destruct (Toy.env s !! other); [|discriminate].
    congruence.
Qed.

(** C5 on the line [x y] with the wrapping converters: the scalar [1]
    comes back as the one-element list of it. *)
Lemma push_then_pull_round_trip_witness :
  exists w1 w2,
    Rpush (B := Toy.bridge) "x y"
      (Toy.init {["x" := PObj 1%Z; "y" := PList []]}) = (w1, inr tt)
    /\ Rpull (B := Toy.bridge) "x y" w1 = (w2, inr tt)
    /\ user_ns w2 !! "x" = Some (PList [PObj 1%Z]).
Proof.
  destruct (push_then_pull_round_trip (B := Toy.bridge)
              (fun n => Toy.ident n = true) (fun v => v) toy_env_laws
              "x y" (Toy.init {["x" := PObj 1%Z; "y" := PList []]}))
    as (w1 & w2 & Hpush & Hpull & Hback & _).
  { intros n Hn. apply list_elem_of_In in Hn. simpl in Hn.
    destruct Hn as [<-|[<-|[]]].
    - split; [reflexivity|].
      exists (PObj 1%Z), (PList [PObj 1%Z]).
      split; reflexivity.
    - split; [reflexivity|].
      exists (PList []), (PList []). split; reflexivity. }
  exists w1, w2. split; [exact Hpush|]. split; [exact Hpull|].
  destruct (Hback "x" (PObj 1%Z)) as (back & Hrt & Hx).
  { apply list_elem_of_In. simpl. auto. }
  { reflexivity. }
  refine (eq_trans Hx _). f_equal. vm_compute in Hrt. congruence.
Defined.

(** ** What [R] publishes and returns *)

Section Execute.

Context `{B : Bridge}.

Lemma map_M_length {A C} (f : A -> M C) (xs : list A) (w w' : World) ys :
  map_M f xs w = (w', inr ys) -> length ys = length xs.
Proof.
  revert w ys. induction xs as [|x rest IH]; intros w ys H; simpl in H.
  - injection H as _ <-. reflexivity.
  - apply bind_inr_inv in H as (w1 & y & _ & H).
    apply bind_inr_inv in H as (w2 & ys' & Hrest & H).
    injection H as <- <-. simpl. f_equal. exact (IH _ _ Hrest).
Qed.

Lemma map_M_converted (rs : list (pyval Obj)) (w w' : World) cs :
  map_M (fun rr => lift (Rconverter rr)) rs w = (w', inr cs) ->
  Forall2 (fun r c => Rconverter r = inr c) rs cs.
Proof.
  revert w cs. induction rs as [|r rest IH]; intros w cs H; simpl in H.
  - injection H as _ <-. constructor.
  - apply bind_inr_inv in H as (w1 & c & Hc & H).
    apply bind_inr_inv in H as (w2 & cs' & Hrest & H).
    injection H as <- <-. constructor; [|exact (IH _ _ Hrest)].
    unfold lift in Hc. congruence.
Qed.

Lemma publish_images_display (images : list string) (w : World) :
  exists w',
    for_each (fun image => publish_display_data "RMagic.R" mime (Bytes image))
      images w = (w', inr tt)
    /\ display w' = display w ++ map image_item images.
Proof.
  revert w. induction images as [|image rest IH]; intros w.
  - exists w. split; [reflexivity|]. simpl. now rewrite app_nil_r.
  - destruct (IH (set_display (display w ++ [image_item image]) w))
      as (w' & Hrun & Hdis).
    exists w'. split; [exact Hrun|].
    rewrite Hdis. simpl. now rewrite <- app_assoc.
Qed.

Lemma publish_all_display (text : unicode) (images : list string)
    (w : World) :
  exists w',
    publish_all text images w = (w', inr (published_flag text images))
    /\ display w' = display w ++ text_items text ++ map image_item images.
Proof.
  unfold publish_all. destruct text as [|cp text].
  - destruct (publish_images_display images w) as (w' & Hrun & Hdis).
    exists w'. split; [|exact Hdis].
    unfold bind at 1. simpl. rewrite (bind_inr _ _ _ _ _ Hrun).
    destruct images; reflexivity.
  - destruct (publish_images_display images
                (set_display
                   (display w
                    ++ [mk_item "RMagic.R" "text/plain" (Text (cp :: text))])
                   w))
      as (w' & Hrun & Hdis).
    exists w'. split.
    + unfold bind at 1. unfold bind at 1. simpl.
      rewrite (bind_inr _ _ _ _ _ Hrun). destruct images; reflexivity.
    + rewrite Hdis. simpl. now rewrite <- app_assoc.
Qed.

Lemma read_images_keeps {X} (f : World -> X) tmpd : keeps f (read_images tmpd).
Proof. keeps_auto. Qed.

Lemma flush_keeps_display : keeps display flush.
Proof. keeps_prim. Qed.

(** The statements of [R] after the images are published display
    nothing. *)
Lemma R_rest_keeps_display args tmpd ro published lines result :
  keeps display
    (_ <- (if given (args_output args)
           then for_each pull_one (name_list (args_output args))
           else ret tt) ;;
     _ <- rmtree tmpd ;;
     return_value ro published lines result).
Proof. keeps_auto. Qed.

(** What a call of [R] that gets as far as draining the buffer has
    displayed when it ends, however it ends. *)
Lemma R_display (args : Args) (cell : option string)
    (w w1 w2 w3 : World) (ran : string * list (pyval Obj))
    (images : list string) (text : unicode) :
  run_code args (R_lines args cell) w = (w1, inr ran) ->
  read_images (fst ran) w1 = (w2, inr images) ->
  flush w2 = (w3, inr text) ->
  display w3 = display w
  /\ display (fst (R args cell w))
     = display w ++ text_items text ++ map image_item images.
Proof.
  intros Hran Himg Hflush.
  assert (H3 : display w3 = display w).
  { pose proof (flush_keeps_display w2) as H.
    rewrite Hflush in H. simpl in H. rewrite H.
    pose proof (read_images_keeps display (fst ran) w1) as H'.
    rewrite Himg in H'. simpl in H'. rewrite H'.
    pose proof (run_code_keeps_display args (R_lines args cell) w) as H''.
    rewrite Hran in H''. exact H''. }
  split; [exact H3|].
  destruct (publish_all_display text images w3) as (w4 & Hpub & Hdis).
  unfold R.
  rewrite (bind_inr _ _ _ _ _ Hran), (bind_inr _ _ _ _ _ Himg),
    (bind_inr _ _ _ _ _ Hflush), (bind_inr _ _ _ _ _ Hpub).
  rewrite <- H3, <- Hdis.
  apply (R_rest_keeps_display args (fst ran) (R_return_output cell)
           (published_flag text images) (R_lines args cell) (snd ran) w4).
Qed.

Lemma image_items_not_text (images : list string) :
  List.filter (fun it => String.eqb (item_mime it) "text/plain")
    (map image_item images) = [].
Proof. induction images as [|image rest IH]; [reflexivity|exact IH]. Qed.

(** C8: when a call of [R] has run its code, read the images and drained
    the buffer, nothing was displayed before the drain, and the call adds
    to the display the drained text first, as one [text/plain] item from
    the source [RMagic.R] if the text is not empty and as no item if it is
    empty, and after it one item per image; whatever happens later in the
    call adds nothing, so the call displays one [text/plain] item or
    none. *)
Theorem R_publishes_drained_text (args : Args) (cell : option string)
    (w w1 w2 w3 : World) (ran : string * list (pyval Obj))
    (images : list string) (text : unicode) :
  run_code args (R_lines args cell) w = (w1, inr ran) ->
  read_images (fst ran) w1 = (w2, inr images) ->
  flush w2 = (w3, inr text) ->
  display w3 = display w
  /\ display (fst (R args cell w))
     = display w ++ text_items text ++ map image_item images
  /\ text_items text
     = match text with
       | [] => []
       | _ :: _ => [mk_item "RMagic.R" "text/plain" (Text text)]
       end
  /\ length (List.filter
               (fun it => String.eqb (item_mime it) "text/plain")
               (text_items text ++ map image_item images))
     = match text with
       | [] => 0
       | _ :: _ => 1
       end.
Proof.
  intros Hran Himg Hflush.
  destruct (R_display args cell w w1 w2 w3 ran images text Hran Himg Hflush)
    as [H3 Hdis].
  split; [exact H3|]. split; [exact Hdis|]. split; [reflexivity|].
  rewrite List.filter_app, image_items_not_text, app_nil_r.
  destruct text; reflexivity.
Qed.

Lemma published_flag_false (text : unicode) (images : list string) :
  published_flag text images = false <->
  text_items text ++ map image_item images = [].
Proof.
  destruct text, images; simpl; split; intros H;
    try reflexivity; discriminate.
Qed.

Lemma run_code_length (args : Args) (lines : list string) (w w1 : World)
    tmpd result :
  run_code args lines w = (w1, inr (tmpd, result)) ->
  length result = length lines.
Proof.
  unfold run_code. intros H.
  apply bind_inr_inv in H as (wa & d & _ & H).
  apply bind_inr_inv in H as (wb & rs & Hmap & H).
  apply bind_inr_inv in H as (wc & x & _ & H).
  injection H as _ _ <-. exact (map_M_length _ _ _ _ _ Hmap).
Qed.

(** What the last statements return, for results aligned with the
    lines. *)
Lemma return_value_policy (ro published : bool) (lines : list string)
    (result : list (pyval Obj)) (w w' : World) (v : pyval Obj) :
  length result = length lines ->
  return_value ro published lines result w = (w', inr v) ->
  (ro = true /\ published = false ->
     match result with
     | [] => v = PNone
     | [r] => Rconverter r = inr v
     | _ :: _ :: _ =>
         exists vs,
           Forall2 (fun r c => Rconverter r = inr c) result vs
           /\ v = PList vs
     end)
  /\ (ro = false \/ published = true -> v = PNone).
Proof.
  intros Hlen Hret. unfold return_value in Hret. split.
  - intros [-> ->]. simpl in Hret.
    destruct result as [|r0 [|r1 rest]], lines as [|l0 [|l1 lines]];
      simpl in Hlen; try discriminate; simpl in Hret.
    + injection Hret as _ <-. reflexivity.
    + unfold lift in Hret. congruence.
    + apply bind_inr_inv in Hret as (wa & cs & Hcs & Hret).
      injection Hret as _ <-. exists cs. split; [|reflexivity].
      exact (map_M_converted (r0 :: r1 :: rest) _ _ _ Hcs).
  - intros [-> | ->]; simpl in Hret.
    + injection Hret as _ <-. reflexivity.
    + rewrite andb_false_r in Hret. injection Hret as _ <-. reflexivity.
Qed.

Lemma map_M_eval_in_order (lines : list string) (w w' : World)
    (results : list (pyval Obj)) :
  map_M eval lines w = (w', inr results) ->
  evals_in_order w lines results w'.
Proof.
  revert w results. induction lines as [|line rest IH]; intros w results H.
  - simpl in H. injection H as <- <-. constructor.
  - simpl in H. apply bind_inr_inv in H as (w1 & v & Hv & H).
    apply bind_inr_inv in H as (w2 & vs & Hvs & H).
    injection H as <- <-. exact (evals_cons _ _ _ _ _ _ _ Hv (IH _ _ Hvs)).
Qed.

Lemma run_code_inv (args : Args) (lines : list string) (w w2 : World)
    (tmpd : string) (result : list (pyval Obj)) :
  run_code args lines w = (w2, inr (tmpd, result)) ->
  exists w0 w1,
    open_device args w = (w0, inr tmpd)
    /\ map_M eval lines w0 = (w1, inr result).
Proof.
  unfold run_code. intros H.
  apply bind_inr_inv in H as (w0 & d & Hopen & H).
  apply bind_inr_inv in H as (w1 & rs & Hmap & H).
  apply bind_inr_inv in H as (wc & x & _ & H).
  injection H as _ <- <-. exists w0, w1. split; assumption.
Qed.

(** C1: when a call of [R] returns, the device was opened, the lines (the
    code of the argument string, then the lines of the cell) were
    evaluated one after the other from the world that left, and [result]
    has the value of each line at the place of the line.  The value
    returned follows the return policy.  In line form with nothing
    displayed by the call it is [None] for no line, the converted value
    of the line for one line, and the list of the converted results, in
    the order of the lines, for more; in cell form, or when the call
    displayed something, it is [None]. *)
Theorem R_return_policy (args : Args) (cell : option string)
    (w w' : World) (v : pyval Obj) :
  R args cell w = (w', inr v) ->
  exists w0 w1 w2 tmpd result,
    open_device args w = (w0, inr tmpd)
    /\ evals_in_order w0
         (args_code args ++
          match cell with
          | None => []
          | Some body => split "010"%char body
          end)
         result w1
    /\ run_code args (R_lines args cell) w = (w2, inr (tmpd, result))
    /\ length result = length (R_lines args cell)
    /\ (cell = None /\ display w' = display w ->
          match args_code args, result with
          | [], [] => v = PNone
          | [line], [r] =>
              eval line w0 = (w1, inr r) /\ Rconverter r = inr v
          | _ :: _ :: _, _ :: _ :: _ =>
              exists vs,
                Forall2 (fun r c => Rconverter r = inr c) result vs
                /\ v = PList vs
          | _, _ => False
          end)
    /\ (cell <> None \/ display w' <> display w -> v = PNone).
Proof.
  intros HR. pose proof HR as Hrun. unfold R in HR.
  apply bind_inr_inv in HR as (w2 & [tmpd result] & Hran & HR).
  apply bind_inr_inv in HR as (w3 & images & Himg & HR).
  apply bind_inr_inv in HR as (w4 & text & Hflush & HR).
  destruct (publish_all_display text images w4) as (w5 & Hpub & _).
  rewrite (bind_inr _ _ _ _ _ Hpub) in HR.
  apply bind_inr_inv in HR as (w6 & [] & _ & HR).
  apply bind_inr_inv in HR as (w7 & [] & _ & HR).
  pose proof (run_code_length _ _ _ _ _ _ Hran) as Hlen.
  destruct (run_code_inv _ _ _ _ _ _ Hran) as (w0 & w1 & Hopen & Hmap).
  pose proof (map_M_eval_in_order _ _ _ _ Hmap) as Hord.
  destruct (R_display args cell w w2 w3 w4 _ images text Hran Himg Hflush)
    as [_ Hdis].
  rewrite Hrun in Hdis. simpl in Hdis, HR.
  destruct (return_value_policy _ _ _ _ _ _ _ Hlen HR) as [Hline Hnone].
  assert (Hflag : published_flag text images = false <->
                  display w' = display w).
  { rewrite published_flag_false, Hdis. split.
    - intros ->. now rewrite app_nil_r.
    - intros H. apply (app_inv_head (display w)). now rewrite app_nil_r. }
  exists w0, w1, w2, tmpd, result.
  split; [exact Hopen|]. split; [exact Hord|].
  split; [exact Hran|]. split; [exact Hlen|]. split.
  - intros [-> Hsame].
    assert (Hpol := Hline (conj eq_refl (proj2 Hflag Hsame))).
    unfold R_lines in Hlen, Hord. rewrite app_nil_r in Hlen, Hord.
    destruct (args_code args) as [|l0 [|l1 ls]],
      result as [|r0 [|r1 rs]]; simpl in Hlen; try discriminate Hlen.
    + exact Hpol.
    + split; [|exact Hpol].
      inversion Hord as [|? wa ? ? ? ? ? Hev Hnil]; subst.
      inversion Hnil; subst. exact Hev.
    + exact Hpol.
  - intros [Hcell | Hdiff]; apply Hnone.
    + left. destruct cell; [reflexivity|congruence].
    + right. destruct (published_flag text images); [reflexivity|].
      exfalso. apply Hdiff, Hflag. reflexivity.
Qed.

(** ** The temporary directory and the images *)

Lemma open_device_fresh (args : Args) (w w0 : World) (tmpd : string) :
  open_device args w = (w0, inr tmpd) -> fs w !! tmpd = None.
Proof.
  unfold open_device. intros H.
  apply bind_inr_inv in H as (wa & [] & Hpush & H).
  apply bind_inr_inv in H as (wb & d & Hmk & H).
  apply bind_inr_inv in H as (wc & x & _ & H).
  injection H as _ <-.
  assert (Hfs : fs wa = fs w).
  { assert (Hk : keeps fs (if given (args_input args)
                           then for_each push_one (name_list (args_input args))
                           else ret tt)) by keeps_auto.
    specialize (Hk w). rewrite Hpush in Hk. exact Hk. }
  unfold mkdtemp in Hmk. injection Hmk as _ <-.
  rewrite <- Hfs. apply fresh_string_fresh.
Qed.

(** X17: when [R] returns, the directory it made was not there before the
    call and is not there after it. *)
Lemma R_return_removes_tempdir (args : Args) (cell : option string)
    (w w' : World) (v : pyval Obj) :
  R args cell w = (w', inr v) ->
  exists w1 tmpd result,
    run_code args (R_lines args cell) w = (w1, inr (tmpd, result))
    /\ fs w !! tmpd = None
    /\ fs w' !! tmpd = None.
Proof.
  intros HR. unfold R in HR.
  apply bind_inr_inv in HR as (w1 & [tmpd result] & Hran & HR).
  apply bind_inr_inv in HR as (w2 & images & _ & HR).
  apply bind_inr_inv in HR as (w3 & text & _ & HR).
  apply bind_inr_inv in HR as (w4 & published & _ & HR).
  apply bind_inr_inv in HR as (w5 & [] & _ & HR).
  apply bind_inr_inv in HR as (w6 & [] & Hrm & HR).
  exists w1, tmpd, result. split; [exact Hran|]. split.
  - unfold run_code in Hran.
    apply bind_inr_inv in Hran as (wa & d & Hopen & Hran).
    apply bind_inr_inv in Hran as (wb & rs & _ & Hran).
    apply bind_inr_inv in Hran as (wc & x & _ & Hran).
    injection Hran as _ <- _. exact (open_device_fresh _ _ _ _ Hopen).
  - pose proof (return_value_keeps fs (R_return_output cell) published
                  (R_lines args cell) result w6) as Hk.
    simpl in HR. rewrite HR in Hk. simpl in Hk. rewrite Hk.
    unfold rmtree in Hrm. simpl in Hrm.
    destruct (fs w5 !! tmpd); [|discriminate].
    injection Hrm as <-. simpl. apply lookup_delete_eq.
Qed.




End Execute.

(** C1 on two lines in line form that print nothing: the pair of the
    converted values of [x] and [y], in that order. *)
Lemma R_return_policy_witness :
  exists w' w0 w1 result,
    R (B := Toy.bridge) (Toy.code_args ["x"; "y"]) None
      (Toy.with_env {["x" := PObj 1%Z; "y" := PObj 2%Z]})
    = (w', inr (PList [PList [PObj 1%Z]; PList [PObj 2%Z]]))
    /\ evals_in_order (B := Toy.bridge) w0 ["x"; "y"] result w1
    /\ Forall2 (fun r c => Toy.asarray r = inr c) result
         [PList [PObj 1%Z]; PList [PObj 2%Z]].
Proof.
  pose (w := Toy.with_env {["x" := PObj 1%Z; "y" := PObj 2%Z]}).
  assert (Hrun : R (B := Toy.bridge) (Toy.code_args ["x"; "y"]) None w
                 = (fst (R (B := Toy.bridge) (Toy.code_args ["x"; "y"])
                           None w),
                    inr (PList [PList [PObj 1%Z]; PList [PObj 2%Z]])))
    by (apply (run_eq (B := Toy.bridge)); vm_compute; reflexivity).
  assert (Hsame : display (fst (R (B := Toy.bridge)
                                  (Toy.code_args ["x"; "y"]) None w))
                  = display w) by (vm_compute; reflexivity).
  destruct (R_return_policy (B := Toy.bridge) _ _ _ _ _ Hrun)
    as (w0 & w1 & w2 & tmpd & result & _ & Hord & _ & _ & Hline & _).
  specialize (Hline (conj eq_refl Hsame)).
  exists (fst (R (B := Toy.bridge) (Toy.code_args ["x"; "y"]) None w)),
    w0, w1, result.
  split; [exact Hrun|]. split; [exact Hord|].
  change (args_code (Toy.code_args ["x"; "y"])) with ["x"; "y"] in Hline.
  destruct result as [|r0 [|r1 rest]]; try contradiction.
  destruct Hline as (vs & Hvs & Hv). injection Hv as <-. exact Hvs.
Defined.

(** C8 on a line that prints [hi]: one text item and nothing else. *)
Lemma R_publishes_drained_text_witness :
  display (fst (R (B := Toy.bridge) (Toy.code_args ["cat(hi"]) None
                  (Toy.init ∅)))
  = [mk_item "RMagic.R" "text/plain" (Text [104; 105]%N)].
Proof.
  pose (w := Toy.init ∅).
  pose (r1 := run_code (B := Toy.bridge) (Toy.code_args ["cat(hi"])
                (R_lines (Toy.code_args ["cat(hi"]) None) w).
  pose (r2 := read_images (B := Toy.bridge) "/tmp/tmp" (fst r1)).
  pose (r3 := flush (B := Toy.bridge) (fst r2)).
  assert (H1 : r1 = (fst r1, inr ("/tmp/tmp", [PNone])))
    by (apply (run_eq (B := Toy.bridge)); vm_compute; reflexivity).
  assert (H2 : r2 = (fst r2, inr []))
    by (apply (run_eq (B := Toy.bridge)); vm_compute; reflexivity).
  assert (H3 : r3 = (fst r3, inr [104; 105]%N))
    by (apply (run_eq (B := Toy.bridge)); vm_compute; reflexivity).
  destruct (R_publishes_drained_text (B := Toy.bridge)
              (Toy.code_args ["cat(hi"]) None w (fst r1) (fst r2) (fst r3)
              ("/tmp/tmp", [PNone]) [] [104; 105]%N H1 H2 H3)
    as (_ & Hdis & _).
  exact Hdis.
Defined.

(** C2 fails on its error paths: when pulling the output name [zz] raises
    because the interpreter has no such variable, the directory that the
    call made, absent before the call, is still there when the error
    reaches the caller. *)
Lemma R_pull_error_leaves_tempdir :
  snd (R (B := Toy.bridge) (Toy.out_args [] ["zz"]) None (Toy.init ∅))
  = inl (RRuntimeError "object 'zz' not found")
  /\ fs (Toy.init ∅) !! "/tmp/tmp" = None
  /\ fs (fst (R (B := Toy.bridge) (Toy.out_args [] ["zz"]) None
                (Toy.init ∅))) !! "/tmp/tmp" = Some [].
Proof. vm_compute. repeat split. Qed.

(** C4 fails where the directory does not list its files by name: with two
    pages and a listing that gives the newer file first, the second page
    is published before the first. *)
Lemma R_images_in_listing_order :
  (let w1 := fst (run_code (B := Toy.bridge)
                    (Toy.code_args ["plot()"; "plot()"])
                    ["plot()"; "plot()"] (Toy.init ∅)) in
   snd (glob (B := Toy.bridge) "/tmp/tmp" w1)
   = inr [("/tmp/tmp", "Rplots002.png"); ("/tmp/tmp", "Rplots001.png")])
  /\ String.compare "Rplots002.png" "Rplots001.png" = Gt
  /\ display (fst (R (B := Toy.bridge) (Toy.code_args ["plot()"; "plot()"])
                     None (Toy.init ∅)))
     = [mk_item "RMagic.R" "image/png" (Bytes "PNG2");
        mk_item "RMagic.R" "image/png" (Bytes "PNG1")].
Proof. vm_compute. repeat split. Qed.

(** * Further properties of the bridge *)

(** ** The buffer only grows until it is drained *)

Section Growth.

Context `{B : Bridge}.

Lemma grows_ret {A} (a : A) : grows (ret a).
Proof. intros w. exists []. simpl. now rewrite app_nil_r. Qed.

Lemma grows_raise {A} (e : exn) : grows (raise (A := A) e).
Proof. intros w. exists []. simpl. now rewrite app_nil_r. Qed.

Lemma grows_lift {A} (r : exn + A) : grows (lift r).
Proof. intros w. exists []. simpl. now rewrite app_nil_r. Qed.

Lemma grows_bind {A C} (m : M A) (k : A -> M C) :
  grows m -> (forall a, grows (k a)) -> grows (bind m k).
Proof.
  intros Hm Hk w. unfold bind. destruct (Hm w) as (more & Hmore).
  destruct (m w) as [w1 [e|a]]; simpl in *; [eauto|].
  destruct (Hk a w1) as (more' & Hmore').
  exists (more ++ more'). rewrite Hmore', Hmore. now rewrite app_assoc.
Qed.

Lemma grows_for_each {A} (body : A -> M unit) xs :
  (forall x, grows (body x)) -> grows (for_each body xs).
Proof.
  intros Hbody. induction xs as [|x rest IH]; simpl.
  - apply grows_ret.
  - apply grows_bind; [apply Hbody|intros _; exact IH].
Qed.

Lemma grows_map_M {A C} (g : A -> M C) xs :
  (forall x, grows (g x)) -> grows (map_M g xs).
Proof.
  intros Hg. induction xs as [|x rest IH]; simpl.
  - apply grows_ret.
  - apply grows_bind; [apply Hg|intros y].
    apply grows_bind; [exact IH|intros ys]. apply grows_ret.
Qed.

End Growth.

Ltac grows_prim :=
  intros ?w;
  unfold write_console, interp, assign, ns_get, shell_push,
    publish_display_data, mkdtemp, glob, file_read, rmtree;
  repeat case_match; simpl;
  first [ exists []; rewrite app_nil_r; reflexivity
        | eexists; reflexivity ].

Ltac grows_step :=
  first
    [ apply grows_ret | apply grows_raise | apply grows_lift
    | apply grows_bind; [|intros ?]
    | apply grows_for_each; intros ?
    | apply grows_map_M; intros ?
    | match goal with
      | |- grows (if ?c then _ else _) => destruct c
      | |- grows (match ?x with _ => _ end) => destruct x
      end
    | progress unfold r_call, eval, push_one, pull_one, open_device,
        read_images, run_code
    | grows_prim ].

Ltac grows_auto := repeat grows_step.

Section Buffer.

Context `{B : Bridge}.

Lemma eval_grows line : grows (eval line).
Proof. grows_auto. Qed.

Lemma run_code_grows args lines : grows (run_code args lines).
Proof. grows_auto. Qed.

Lemma read_images_grows tmpd : grows (read_images tmpd).
Proof. grows_auto. Qed.


Lemma decode_all_app (a b : list string) (ta tb : list unicode) :
  decode_all a = Some ta -> decode_all b = Some tb ->
  decode_all (a ++ b) = Some (ta ++ tb).
Proof.
  revert ta. induction a as [|c rest IH]; intros ta Ha Hb; simpl in *.
  - injection Ha as <-. exact Hb.
  - destruct (decode_utf8 c) as [t|]; [|discriminate].
    destruct (decode_all rest) as [ts|]; [|discriminate].
    injection Ha as <-. rewrite (IH ts eq_refl Hb). reflexivity.
Qed.

Lemma decode_all_bad (chunks : list string) (bad : string) :
  bad ∈ chunks -> decode_utf8 bad = None -> decode_all chunks = None.
Proof.
  intros Hin Hbad. induction chunks as [|c rest IH]; [inversion Hin|].
  simpl. apply elem_of_cons in Hin as [<-|Hin].
  - rewrite Hbad. reflexivity.
  - rewrite (IH Hin). destruct (decode_utf8 c); reflexivity.
Qed.

Lemma decode_all_empty_text (chunks : list string) (texts : list unicode) :
  decode_all chunks = Some texts ->
  (concat texts = [] <-> Forall (fun c => c = "") chunks).
Proof.
  revert texts. induction chunks as [|c rest IH]; intros texts H; simpl in H.
  - injection H as <-. split; [constructor|reflexivity].
  - destruct (decode_utf8 c) as [t|] eqn:Hc; [|discriminate].
    destruct (decode_all rest) as [ts|] eqn:Hr; [|discriminate].
    injection H as <-. simpl. split.
    + intros Hnil. apply app_eq_nil in Hnil as [-> Hts].
      constructor; [exact (decode_utf8_nil_inv c Hc)|].
      apply (IH ts eq_refl). exact Hts.
    + intros Hall. apply Forall_cons in Hall as [-> Hall].
      simpl in Hc. injection Hc as <-. simpl.
      apply (IH ts eq_refl). exact Hall.
Qed.

(** X2: a chunk written to the console is drained after everything that
    was buffered before it: when the buffer and the chunk decode,
    [write_console] and then [flush] return the old text followed by the
    text of the chunk, and the buffer is empty. *)
Theorem write_console_then_flush (chunk : string) (w : World)
    (texts : list unicode) (t : unicode) :
  decode_all (output w) = Some texts ->
  decode_utf8 chunk = Some t ->
  exists w1 w2,
    write_console chunk w = (w1, inr tt)
    /\ flush w1 = (w2, inr (concat texts ++ t))
    /\ output w2 = [].
Proof.
  intros Hold Hchunk.
  assert (Hall : decode_all (output w ++ [chunk]) = Some (texts ++ [t])).
  { apply decode_all_app; [exact Hold|]. simpl. rewrite Hchunk. reflexivity. }
  exists (set_output (output w ++ [chunk]) w),
    (set_output [] (set_output (output w ++ [chunk]) w)).
  split; [reflexivity|]. split; [|reflexivity].
  unfold flush. simpl. rewrite Hall.
  rewrite concat_app. simpl. now rewrite app_nil_r.
Qed.

(** X3: when [flush] returns, the text is empty exactly when every
    buffered chunk is the empty byte string. *)
Theorem flush_empty_text (w w' : World) (text : unicode) :
  flush w = (w', inr text) ->
  (text = [] <-> Forall (fun c => c = "") (output w)).
Proof.
  unfold flush. intros H.
  destruct (decode_all (output w)) as [texts|] eqn:Hdec; [|discriminate].
  injection H as _ <-. exact (decode_all_empty_text _ _ Hdec).
Qed.

Lemma error_text_not_empty (line msg : string) : error_text line msg <> "".
Proof. unfold error_text. discriminate. Qed.

(** X4: the diagnostic of a failed line is never dropped by the next
    drain: after [eval] on a line that the interpreter rejects, a [flush]
    that returns gives a text that is not empty. *)
Theorem eval_error_text_not_empty (line msg : string) (w w' w'' : World)
    (v : pyval Obj) (text : unicode) :
  run_result (r_parse_eval line (rstate w) (fs w)) = inl msg ->
  eval line w = (w', inr v) ->
  flush w' = (w'', inr text) ->
  text <> [].
Proof.
  intros Herr Hev Hflush Hnil.
  apply (flush_empty_text _ _ _ Hflush) in Hnil.
  unfold eval, bind, interp, write_console in Hev. rewrite Herr in Hev.
  simpl in Hev. injection Hev as <- _. simpl in Hnil.
  apply Forall_app in Hnil as [_ Hlast].
  apply Forall_cons in Hlast as [Hlast _].
  exact (error_text_not_empty line msg Hlast).
Qed.

End Buffer.

(** X2 on the buffer of two ASCII chunks and the chunk [d]. *)
Lemma write_console_then_flush_witness :
  exists w1 w2,
    write_console "d" Toy.ascii_world = (w1, inr tt)
    /\ flush w1 = (w2, inr [97; 98; 99; 100]%N)
    /\ output w2 = [].
Proof.
  exact (write_console_then_flush (B := Toy.bridge) "d" Toy.ascii_world
           [[97; 98]%N; [99]%N] [100%N] eq_refl eq_refl).
Defined.

(** X3 on the buffer of two ASCII chunks: the text is not empty, and not
    every chunk is. *)
Lemma flush_empty_text_witness :
  exists w',
    flush Toy.ascii_world = (w', inr [97; 98; 99]%N)
    /\ ~ Forall (fun c => c = "") (output Toy.ascii_world).
Proof.
  assert (Hflush : flush Toy.ascii_world
                   = (set_output [] Toy.ascii_world, inr [97; 98; 99]%N))
    by reflexivity.
  exists (set_output [] Toy.ascii_world). split; [exact Hflush|].
  intros Hall.
  apply (flush_empty_text (B := Toy.bridge) _ _ _ Hflush) in Hall.
  discriminate Hall.
Defined.

(** X4 on a line that the small interpreter cannot evaluate. *)
Lemma eval_error_text_not_empty_witness :
  exists w'' text,
    flush (fst (eval (B := Toy.bridge) "stop(" (Toy.init ∅)))
    = (w'', inr text)
    /\ text <> [].
Proof.
  pose (w' := fst (eval (B := Toy.bridge) "stop(" (Toy.init ∅))).
  pose (text := match snd (flush w') with inr t => t | inl _ => [] end).
  assert (Hev : eval (B := Toy.bridge) "stop(" (Toy.init ∅)
                = (w', inr PNone))
    by (apply (run_eq (B := Toy.bridge)); vm_compute; reflexivity).
  assert (Hflush : flush w' = (fst (flush w'), inr text))
    by (apply (run_eq (B := Toy.bridge)); vm_compute; reflexivity).
  exists (fst (flush w')), text. split; [exact Hflush|].
  exact (eval_error_text_not_empty (B := Toy.bridge) "stop("
           "could not evaluate" (Toy.init ∅) w' (fst (flush w')) PNone text
           eq_refl Hev Hflush).
Defined.

(** ** What a chunk that does not decode does to [R] *)

Section Poison.

Context `{B : Bridge}.

(** X5: a chunk that is not valid UTF-8 in the buffer stops every call of
    [R] that gets as far as the drain: the call raises
    [UnicodeDecodeError], displays nothing, and the chunk is still in the
    buffer for the next call. *)
Theorem R_undecodable_chunk_raises (args : Args) (cell : option string)
    (w w1 w2 : World) (ran : string * list (pyval Obj))
    (images : list string) (bad : string) :
  bad ∈ output w ->
  decode_utf8 bad = None ->
  run_code args (R_lines args cell) w = (w1, inr ran) ->
  read_images (fst ran) w1 = (w2, inr images) ->
  R args cell w = (w2, inl UnicodeDecodeError)
  /\ display w2 = display w
  /\ bad ∈ output w2.
Proof.
  intros Hin Hbad Hran Himg.
  destruct (run_code_grows args (R_lines args cell) w) as (m1 & H1).
  destruct (read_images_grows (fst ran) w1) as (m2 & H2).
  rewrite Hran in H1. rewrite Himg in H2. simpl in H1, H2.
  assert (Hin2 : bad ∈ output w2).
  { rewrite H2, H1. apply elem_of_app. left. apply elem_of_app. left.
    exact Hin. }
  split; [|split; [|exact Hin2]].
  - unfold R.
    rewrite (bind_inr _ _ _ _ _ Hran), (bind_inr _ _ _ _ _ Himg).
    apply bind_inl. unfold flush.
    rewrite (decode_all_bad _ _ Hin2 Hbad). reflexivity.
  - pose proof (read_images_keeps display (fst ran) w1) as Hk.
    rewrite Himg in Hk. simpl in Hk. rewrite Hk.
    pose proof (run_code_keeps_display args (R_lines args cell) w) as Hk'.
    rewrite Hran in Hk'. exact Hk'.
Qed.

End Poison.

(** X5 on a call with no code in the session whose buffer holds Latin-1
    output. *)
Lemma R_undecodable_chunk_raises_witness :
  exists w2,
    R (B := Toy.bridge) (Toy.code_args []) None Toy.latin1_world
    = (w2, inl UnicodeDecodeError)
    /\ display w2 = [].
Proof.
  pose (r1 := run_code (B := Toy.bridge) (Toy.code_args []) [] Toy.latin1_world).
  pose (r2 := read_images (B := Toy.bridge) "/tmp/tmp" (fst r1)).
  assert (H1 : r1 = (fst r1, inr ("/tmp/tmp", [])))
    by (apply (run_eq (B := Toy.bridge)); vm_compute; reflexivity).
  assert (H2 : r2 = (fst r2, inr []))
    by (apply (run_eq (B := Toy.bridge)); vm_compute; reflexivity).
  destruct (R_undecodable_chunk_raises (B := Toy.bridge) (Toy.code_args [])
              None Toy.latin1_world (fst r1) (fst r2) ("/tmp/tmp", []) []
              ("caf" +:+ String "233"%char ""))
    as (Hrun & Hdis & _).
  - apply list_elem_of_In. simpl. auto.
  - vm_compute. reflexivity.
  - exact H1.
  - exact H2.
  - exists (fst r2). split; [exact Hrun|exact Hdis].
Defined.

(** ** Lines and name lists *)

Lemma split_cut (sep : ascii) (a b : string) :
  split sep (a +:+ String sep b) = split sep a ++ split sep b.
Proof.
  induction a as [|c a IH]; simpl.
  - rewrite Ascii.eqb_refl. reflexivity.
  - destruct (Ascii.eqb c sep).
    + rewrite IH. reflexivity.
    + rewrite IH. pose proof (split_not_nil sep a) as Hne.
      destruct (split sep a); [congruence|reflexivity].
Qed.

Lemma split_join_cut (sep : ascii) (p : string) (rest : list string) :
  rest <> [] ->
  join (String sep "") (p :: rest) = p +:+ String sep (join (String sep "") rest).
Proof. destruct rest; [congruence|reflexivity]. Qed.

(** X6: names given in several options and in comma-separated groups are
    one list: joining the groups with commas and splitting at every comma
    gives the names of the first group, then those of the second, and so
    on. *)
Theorem name_list_flattens (groups : list string) :
  groups <> [] ->
  name_list (Some groups) = concat (map (split ","%char) groups).
Proof.
  unfold name_list. simpl. intros Hne.
  induction groups as [|g rest IH]; [congruence|].
  destruct rest as [|g' rest'].
  - simpl. now rewrite app_nil_r.
  - rewrite (split_join_cut ","%char g (g' :: rest')) by discriminate.
    rewrite split_cut, IH by discriminate. reflexivity.
Qed.

(** X7: every separator cuts: a string splits into one field more than it
    has separators, so a cell body gives one line more than it has
    newlines, and [R] in cell form evaluates at least one line. *)
Theorem R_lines_count (args : Args) (cell : option string) :
  length (R_lines args cell)
  = length (args_code args)
    + match cell with
      | None => 0
      | Some body => S (count_char "010"%char body)
      end.
Proof.
  unfold R_lines. rewrite length_app. f_equal.
  destruct cell as [body|]; [|reflexivity].
  induction body as [|c body IH]; [reflexivity|].
  simpl. destruct (Ascii.eqb c "010"%char); simpl.
  - now rewrite IH.
  - pose proof (split_not_nil "010"%char body) as Hne.
    destruct (split "010"%char body); [congruence|exact IH].
Qed.

Lemma blank_field_split (line : string) :
  blank_field line -> "" ∈ split " "%char line.
Proof.
  intros [->|[(b & ->)|[(a & ->)|(a & b & ->)]]].
  - left.
  - simpl. left.
  - rewrite split_cut. apply elem_of_app. right. left.
  - rewrite split_cut. apply elem_of_app. right. simpl. left.
Qed.

Section Lines.

Context `{B : Bridge}.

(** X8: whatever it does, [Rpush] changes the interpreter only: the
    buffer, the host namespace, the files and the display are as
    before. *)
Theorem Rpush_touches_only_interpreter (line : string) (w : World) :
  output (fst (Rpush line w)) = output w
  /\ user_ns (fst (Rpush line w)) = user_ns w
  /\ fs (fst (Rpush line w)) = fs w
  /\ display (fst (Rpush line w)) = display w.
Proof.
  unfold Rpush. repeat split.
  - apply push_loop_keeps_output.
  - apply push_loop_keeps_user_ns.
  - apply push_loop_keeps_fs.
  - apply push_loop_keeps_display.
Qed.

(** X9: [Rpush] returns only when the host namespace has every name of
    the line. *)
Theorem Rpush_returns_only_if_present (line : string) (w w' : World) :
  Rpush line w = (w', inr tt) ->
  forall n, n ∈ split " "%char line -> is_Some (user_ns w !! n).
Proof.
  intros Hrun n Hin.
  destruct (user_ns w !! n) as [v|] eqn:Hn; [eauto|].
  destruct (push_loop_absent _ _ _ Hin Hn) as (w1 & e & Hfail).
  unfold Rpush in Hrun. rewrite Hfail in Hrun. discriminate.
Qed.

(** X10: a line with a blank field (an empty line, a space at either end,
    two spaces in a row) names the empty string, so [Rpush] raises on it
    unless the host namespace has a variable of that name; on the empty
    line the exception is the [KeyError] of the empty name and nothing
    has changed. *)
Theorem Rpush_blank_field_raises (line : string) (w : World) :
  blank_field line ->
  user_ns w !! "" = None ->
  (exists w' e, Rpush line w = (w', inl e))
  /\ (line = "" -> Rpush line w = (w, inl (KeyError ""))).
Proof.
  intros Hblank Habs. split.
  - exact (push_loop_absent _ _ _ (blank_field_split line Hblank) Habs).
  - intros ->. unfold Rpush. simpl.
    apply bind_inl. exact (push_one_absent "" w Habs).
Qed.

(** X11: whatever it does, [Rpull] displays nothing and leaves the host
    variables that the line does not name as they were. *)
Theorem Rpull_frame (line k : string) (w : World) :
  k ∉ split " "%char line ->
  user_ns (fst (Rpull line w)) !! k = user_ns w !! k
  /\ display (fst (Rpull line w)) = display w.
Proof.
  intros Hk. unfold Rpull. split.
  - assert (H : keeps (fun w => user_ns w !! k)
                  (for_each pull_one (split " "%char line))).
    { apply keeps_for_each. intros x Hx. apply pull_one_keeps_other.
      intros ->. contradiction. }
    apply H.
  - assert (H : keeps display (for_each pull_one (split " "%char line)))
      by keeps_auto.
    apply H.
Qed.

(** X12: when [Rpull] returns, the host namespace has every name of the
    line. *)
Theorem Rpull_returns_binds_all (line : string) (w w' : World) :
  Rpull line w = (w', inr tt) ->
  forall n, n ∈ split " "%char line -> is_Some (user_ns w' !! n).
Proof. intros Hrun. exact (pull_loop_writes _ _ _ Hrun). Qed.

End Lines.

(** X6 on [-i a,b -i c]. *)
Lemma name_list_flattens_witness :
  name_list (Some ["a,b"; "c"]) = ["a"; "b"; "c"].
Proof. exact (name_list_flattens ["a,b"; "c"] ltac:(discriminate)). Defined.

(** X9 on the line [x] in a session that has [x]. *)
Lemma Rpush_returns_only_if_present_witness :
  exists w',
    Rpush (B := Toy.bridge) "x" (Toy.init {["x" := PObj 1%Z]}) = (w', inr tt)
    /\ is_Some (user_ns (Toy.init {["x" := PObj 1%Z]}) !! "x").
Proof.
  assert (Hrun : Rpush (B := Toy.bridge) "x" (Toy.init {["x" := PObj 1%Z]})
                 = (fst (Rpush (B := Toy.bridge) "x"
                           (Toy.init {["x" := PObj 1%Z]})), inr tt))
    by (apply (run_eq (B := Toy.bridge)); vm_compute; reflexivity).
  eexists. split; [exact Hrun|].
  refine (Rpush_returns_only_if_present (B := Toy.bridge) "x" _ _ Hrun "x" _).
  apply list_elem_of_In. simpl. auto.
Defined.

(** X10 on the line [x ] with a space at its end. *)
Lemma Rpush_blank_field_raises_witness :
  exists w' e,
    Rpush (B := Toy.bridge) "x " (Toy.init {["x" := PObj 1%Z]}) = (w', inl e).
Proof.
  refine (proj1 (Rpush_blank_field_raises (B := Toy.bridge) "x "
                   (Toy.init {["x" := PObj 1%Z]}) _ _)).
  - right. right. left. exists "x". reflexivity.
  - reflexivity.
Defined.

(** X11 on the line [a] for the host variable [b]. *)
Lemma Rpull_frame_witness :
  user_ns (fst (Rpull (B := Toy.bridge) "a"
                  (Toy.init {["b" := PObj 2%Z]}))) !! "b"
  = Some (PObj 2%Z).
Proof.
  refine (eq_trans (proj1 (Rpull_frame (B := Toy.bridge) "a" "b"
                             (Toy.init {["b" := PObj 2%Z]}) _)) _).
  - intros Hin. apply list_elem_of_In in Hin. simpl in Hin.
    destruct Hin as [Heq|[]]. discriminate Heq.
  - reflexivity.
Defined.

(** X12 on the line [a] when the interpreter has [a]. *)
Lemma Rpull_returns_binds_all_witness :
  is_Some (user_ns (fst (Rpull (B := Toy.bridge) "a"
                           (Toy.with_env {["a" := PObj 5%Z]}))) !! "a").
Proof.
  refine (Rpull_returns_binds_all (B := Toy.bridge) "a"
            (Toy.with_env {["a" := PObj 5%Z]})
            (fst (Rpull (B := Toy.bridge) "a"
                    (Toy.with_env {["a" := PObj 5%Z]}))) _ "a" _).
  - apply (run_eq (B := Toy.bridge)). vm_compute. reflexivity.
  - apply list_elem_of_In. simpl. auto.
Defined.

(** ** More on what [R] does *)

Section Calls.

Context `{B : Bridge}.

Lemma flush_clears (w w' : World) (text : unicode) :
  flush w = (w', inr text) -> output w' = [].
Proof.
  unfold flush. destruct (decode_all (output w)); [|discriminate].
  intros H. injection H as <- _. reflexivity.
Qed.

Lemma publish_all_keeps {X} (f : World -> X) text images :
  (forall d w, f (set_display d w) = f w) ->
  keeps f (publish_all text images).
Proof.
  intros Hf. unfold publish_all.
  apply keeps_bind; [|intros p; apply keeps_bind; [|intros; apply keeps_ret]].
  - destruct text; [apply keeps_ret|].
    apply keeps_bind; [|intros; apply keeps_ret].
    intros w. apply Hf.
  - apply keeps_for_each. intros image _ w. apply Hf.
Qed.

(** X13: a call of [R] that names no output and returns leaves the buffer
    empty: everything printed up to the drain went to the display, and
    nothing after the drain prints. *)
Theorem R_returns_drained (args : Args) (cell : option string)
    (w w' : World) (v : pyval Obj) :
  given (args_output args) = false ->
  R args cell w = (w', inr v) ->
  output w' = [].
Proof.
  intros Hno HR. unfold R in HR. rewrite Hno in HR.
  apply bind_inr_inv in HR as (w1 & ran & _ & HR).
  apply bind_inr_inv in HR as (w2 & images & _ & HR).
  apply bind_inr_inv in HR as (w3 & text & Hflush & HR).
  apply bind_inr_inv in HR as (w4 & published & Hpub & HR).
  pose proof (publish_all_keeps output text images (fun _ _ => eq_refl) w3)
    as H4.
  rewrite Hpub in H4. simpl in H4.
  assert (Hk : keeps output
                 (_ <- ret tt ;;
                  _ <- rmtree (fst ran) ;;
                  return_value (R_return_output cell) published
                    (R_lines args cell) (snd ran))) by keeps_auto.
  specialize (Hk w4). rewrite HR in Hk. simpl in Hk.
  rewrite Hk, H4. exact (flush_clears _ _ _ Hflush).
Qed.


(** X15: whatever happens in a call of [R], the display afterwards is the
    display before followed by items from the source [RMagic.R] that are
    plain text or png images: [R] removes nothing from the display and
    sends nothing else. *)
Theorem R_display_grows_tagged (args : Args) (cell : option string)
    (w : World) :
  exists items,
    display (fst (R args cell w)) = display w ++ items
    /\ Forall R_item items.
Proof.
  destruct (run_code args (R_lines args cell) w) as [w1 [e|ran]] eqn:Hran.
  { exists []. split; [|constructor]. rewrite app_nil_r.
    unfold R. rewrite (bind_inl _ _ _ _ _ Hran). simpl.
    pose proof (run_code_keeps_display args (R_lines args cell) w) as Hk.
    rewrite Hran in Hk. exact Hk. }
  destruct (read_images (fst ran) w1) as [w2 [e|images]] eqn:Himg.
  { exists []. split; [|constructor]. rewrite app_nil_r.
    unfold R. rewrite (bind_inr _ _ _ _ _ Hran), (bind_inl _ _ _ _ _ Himg).
    simpl.
    pose proof (read_images_keeps display (fst ran) w1) as Hk.
    rewrite Himg in Hk. simpl in Hk. rewrite Hk.
    pose proof (run_code_keeps_display args (R_lines args cell) w) as Hk'.
    rewrite Hran in Hk'. exact Hk'. }
  destruct (flush w2) as [w3 [e|text]] eqn:Hflush.
  { exists []. split; [|constructor]. rewrite app_nil_r.
    unfold R. rewrite (bind_inr _ _ _ _ _ Hran), (bind_inr _ _ _ _ _ Himg),
      (bind_inl _ _ _ _ _ Hflush). simpl.
    pose proof (flush_keeps_display w2) as Hk0.
    rewrite Hflush in Hk0. simpl in Hk0. rewrite Hk0.
    pose proof (read_images_keeps display (fst ran) w1) as Hk.
    rewrite Himg in Hk. simpl in Hk. rewrite Hk.
    pose proof (run_code_keeps_display args (R_lines args cell) w) as Hk'.
    rewrite Hran in Hk'. exact Hk'. }
  destruct (R_display args cell w w1 w2 w3 ran images text Hran Himg Hflush)
    as [_ Hdis].
  exists (text_items text ++ map image_item images). split; [exact Hdis|].
  apply Forall_app. split.
  - destruct text; constructor; [|constructor].
    split; [reflexivity|left; reflexivity].
  - apply Forall_forall. intros it Hit. apply list_elem_of_fmap in Hit.
    destruct Hit as (image & -> & _). split; [reflexivity|right; reflexivity].
Qed.

(** X16: when the interpreter cannot open the png device, a call of [R]
    without input names raises the interpreter's error before any line is
    evaluated: the buffer has only what the failed call printed, and the
    host namespace and the display are as before. *)
Theorem R_device_failure (args : Args) (cell : option string) (w : World)
    (msg : string) :
  given (args_input args) = false ->
  (let tmpd := fresh_string "/tmp/tmp" (fs w) in
   run_result (r_parse_eval (png_command tmpd (png_args args)) (rstate w)
                 (<[tmpd := []]> (fs w))) = inl msg) ->
  exists w',
    R args cell w = (w', inl (RRuntimeError msg))
    /\ output w'
       = output w
         ++ run_console
              (r_parse_eval
                 (png_command (fresh_string "/tmp/tmp" (fs w)) (png_args args))
                 (rstate w) (<[fresh_string "/tmp/tmp" (fs w) := []]> (fs w)))
    /\ user_ns w' = user_ns w
    /\ display w' = display w.
Proof.
  intros Hno Herr. simpl in Herr.
  eexists. split.
  - unfold R, run_code, open_device. rewrite Hno.
    apply bind_inl. apply bind_inl. unfold bind at 1. simpl.
    unfold bind at 1. unfold mkdtemp at 1. simpl.
    apply bind_inl. unfold r_call, bind, interp. simpl.
    rewrite Herr. reflexivity.
  - simpl. auto.
Qed.

End Calls.

(** X13 on a call that prints and names no output. *)
Lemma R_returns_drained_witness :
  output (fst (R (B := Toy.bridge) (Toy.code_args ["cat(hi"]) None
                 (Toy.init ∅))) = [].
Proof.
  pose (r := R (B := Toy.bridge) (Toy.code_args ["cat(hi"]) None (Toy.init ∅)).
  assert (Hrun : r = (fst r, inr PNone))
    by (apply (run_eq (B := Toy.bridge)); vm_compute; reflexivity).
  exact (R_returns_drained (B := Toy.bridge) (Toy.code_args ["cat(hi"]) None
           (Toy.init ∅) (fst r) PNone eq_refl Hrun).
Defined.


(** X16 on an R that has no png device. *)
Lemma R_device_failure_witness :
  exists w',
    R (B := Toy.no_device) (Toy.code_args ["x"]) None Toy.no_device_world
    = (w', inl (RRuntimeError "unable to start png() device")).
Proof.
  destruct (R_device_failure (B := Toy.no_device) (Toy.code_args ["x"]) None
              Toy.no_device_world "unable to start png() device"
              eq_refl eq_refl)
    as (w' & Hrun & _).
  exists w'. exact Hrun.
Defined.

(** X17 on a call with one line on the small interpreter. *)
Lemma R_return_removes_tempdir_witness :
  exists tmpd : string,
    fs (Toy.with_env {["x" := PObj 1%Z]}) !! tmpd = None
    /\ fs (fst (R (B := Toy.bridge) (Toy.code_args ["x"]) None
                  (Toy.with_env {["x" := PObj 1%Z]}))) !! tmpd = None.
Proof.
  pose (r := R (B := Toy.bridge) (Toy.code_args ["x"]) None
               (Toy.with_env {["x" := PObj 1%Z]})).
  assert (Hrun : r = (fst r, inr (PList [PObj 1%Z])))
    by (apply (run_eq (B := Toy.bridge)); vm_compute; reflexivity).
  destruct (R_return_removes_tempdir (B := Toy.bridge) _ _ _ _ _ Hrun)
    as (w1 & tmpd & result & _ & Hbefore & Hafter).
  exists tmpd. split; [exact Hbefore|exact Hafter].
Defined.

(** X18 on the option [-i zz] in an empty session. *)
Lemma R_absent_input_raises_witness :
  exists w' e,
    R (B := Toy.bridge) (Toy.in_args ["zz"]) None (Toy.init ∅) = (w', inl e)
    /\ fs w' = ∅.
Proof.
  destruct (R_absent_input_raises (B := Toy.bridge) (Toy.in_args ["zz"]) None
              "zz" (Toy.init ∅) eq_refl)
    as (w' & e & Hrun & _ & _ & _ & Hfs).
  - apply list_elem_of_In. simpl. auto.
  - reflexivity.
  - exists w', e. split; [exact Hrun|exact Hfs].
Defined.


(** ** Loading *)

(** X20: loading registers the magics at most once in a process: a load
    sets the flag, a load with the flag unset adds the class to the shell
    it is given, and every later load registers nothing, whichever shell
    it is given. *)
Theorem load_ipython_extension_once (ip1 ip2 : list string) (flag : bool) :
  snd (load_ipython_extension ip1 flag) = true
  /\ fst (load_ipython_extension ip1 false) = ip1 ++ ["RMagics"]
  /\ load_ipython_extension ip2 (snd (load_ipython_extension ip1 flag))
     = (ip2, true).
Proof. destruct flag; repeat split. Qed.

(** ** ASCII output *)

Lemma decode_utf8_ascii (s : string) :
  Forall (fun c => (byte_val c < 128)%N) (list_ascii_of_string s) ->
  decode_utf8 s = Some (map byte_val (list_ascii_of_string s)).
Proof.
  induction s as [|c s IH]; intros Hall; [reflexivity|].
  simpl in Hall. apply Forall_cons in Hall as [Hc Hs].
  simpl. apply N.ltb_lt in Hc. rewrite Hc, (IH Hs). reflexivity.
Qed.

Section Ascii.

Context `{B : Bridge}.

(** X21: console output that is pure ASCII is drained byte for byte: when
    every byte of every chunk is below 128, [flush] returns the bytes of
    the chunks, in order, as the code points of the text, and clears the
    buffer. *)
Theorem flush_ascii (w : World) :
  Forall (fun chunk =>
            Forall (fun c => (byte_val c < 128)%N)
              (list_ascii_of_string chunk))
    (output w) ->
  flush w
  = (set_output [] w,
     inr (concat (map (fun chunk => map byte_val (list_ascii_of_string chunk))
                    (output w)))).
Proof.
  intros Hall. unfold flush.
  assert (Hdec : decode_all (output w)
                 = Some (map (fun chunk =>
                                map byte_val (list_ascii_of_string chunk))
                           (output w))).
  { induction Hall as [|chunk rest Hc Hrest IH]; [reflexivity|].
    simpl. rewrite (decode_utf8_ascii chunk Hc), IH. reflexivity. }
  rewrite Hdec. reflexivity.
Qed.

End Ascii.

(** X21 on the buffer of two ASCII chunks. *)
Lemma flush_ascii_witness :
  flush Toy.ascii_world
  = (set_output [] Toy.ascii_world, inr [97; 98; 99]%N).
Proof.
  refine (flush_ascii (B := Toy.bridge) Toy.ascii_world _).
  repeat constructor.
Defined.
